(** * ElasticNet L1 attack (advertorch/attacks/ead.py): model and properties

    A shallow embedding of [ElasticNetL1Attack].  Tensors are lists
    (a batch is a list of flattened samples), scalars are exact rationals
    ([Q]): rounding, infinities and NaN of floating point are not modelled.
    The classifier, autograd and the learning-rate schedule are external
    collaborators and enter as section variables. *)

From Stdlib Require Import ZArith QArith Qminmax Qabs Lia Lqa.
From stdpp Require Import base list strings.

Open Scope Q_scope.

(** ** Module constants (ead.py, lines 30-38) *)

Definition DIST_UPPER : Q := 10000000000.
Definition COEFF_UPPER : Q := 10000000000.
Definition INVALID_LABEL : Z := (-1)%Z.
Definition REPEAT_STEP : nat := 10.
Definition ONE_MINUS_EPS : Q := 0.999999.
Definition UPPER_CHECK : Q := 1000000000.
Definition PREV_LOSS_INIT : Q := 1000000.
Definition TARGET_MULT : Q := 10000.
Definition NUM_CHECKS : nat := 10.

(** ** Scalars and tensors *)

(** [a < b] as a boolean, the way a comparison of two tensor elements
    produces a mask entry. *)
Definition Qltb (a b : Q) : bool := negb (Qle_bool b a).

(** [(mask).float()]: a boolean mask entry as the number 0 or 1. *)
Definition float (b : bool) : Q := if b then 1 else 0.

(** Python's builtin [min(a, b)] and [max(a, b)]: the first argument wins
    unless the second is strictly better. *)
Definition py_min (a b : Q) : Q := if Qltb b a then b else a.
Definition py_max (a b : Q) : Q := if Qltb a b then b else a.

(** One flattened sample; a batch of samples (N x D); a batch of per-class
    scores (N x C). *)
Abbreviation image := (list Q) (only parsing).
Abbreviation batch := (list (list Q)) (only parsing).
Abbreviation scores := (list (list Q)) (only parsing).

(** [t.sum()] of a one-dimensional tensor. *)
Definition tsum (l : list Q) : Q := foldr Qplus 0 l.

(** [t.max(1)[0]] on one row; torch rejects an empty row, the model
    answers 0 there. *)
Definition row_max (row : list Q) : Q :=
  match row with
  | [] => 0
  | v :: rest => foldl Qmax v rest
  end.

Fixpoint argmax_from (best_i : nat) (best : Q) (i : nat) (row : list Q) : nat :=
  match row with
  | [] => best_i
  | v :: rest =>
      if Qltb best v then argmax_from i v (S i) rest
      else argmax_from best_i best (S i) rest
  end.

(** [torch.argmax(row)] and the index part of [torch.max(t, 1)]: the first
    position holding the largest entry (0 on an empty row, which torch
    rejects). *)
Definition argmax (row : list Q) : nat :=
  match row with
  | [] => 0%nat
  | v :: rest => argmax_from 0 v 1 rest
  end.

(** Element-wise operations on N x D tensors. *)
Definition tmap (f : Q → Q) (a : list (list Q)) : list (list Q) :=
  map (map f) a.
Definition tmap2 (f : Q → Q → Q) (a b : list (list Q)) : list (list Q) :=
  zip_with (zip_with f) a b.

(** [dst[mask] = src[mask]]: entries of [dst] under a true mask entry are
    overwritten from [src]; [dst] keeps its shape.  (Torch requires the three
    shapes to agree; positions past the end of [mask] or [src] are left as
    they are.) *)
Fixpoint masked_assign {A} (mask : list bool) (src dst : list A) {struct dst}
    : list A :=
  match dst with
  | [] => []
  | d :: dst' =>
      match mask, src with
      | m :: mask', s :: src' =>
          (if m then s else d) :: masked_assign mask' src' dst'
      | _, _ => d :: dst'
      end
  end.

(** ** Helpers of advertorch.utils and attacks/utils.py *)

(** Modelled from the spec: [advertorch.utils.clamp] is not among the
    sources; it clips from below when [min] is given, then from above when
    [max] is given. *)
Definition clamp (input : Q) (min max : option Q) : Q :=
  let v := match min with Some lo => Qmax input lo | None => input end in
  match max with Some hi => Qmin v hi | None => v end.

(** Modelled from the spec: [advertorch.utils.calc_l2distsq] is not among
    the sources; per sample, the sum of squared element differences. *)
Definition calc_l2distsq (a b : batch) : list Q :=
  zip_with (fun u v => tsum (zip_with (fun p q => (p - q) * (p - q)) u v)) a b.

(** Modelled from the spec: [advertorch.utils.calc_l1dist] is not among the
    sources; per sample, the sum of absolute element differences. *)
Definition calc_l1dist (a b : batch) : list Q :=
  zip_with (fun u v => tsum (zip_with (fun p q => Qabs (p - q)) u v)) a b.

(** Modelled from the spec: [advertorch.utils.to_one_hot] is not among the
    sources; row [i] has a 1 in column [y[i]] and 0 elsewhere. *)
Definition to_one_hot (y : list nat) (num_classes : nat) : list (list Q) :=
  map (fun l => map (fun j => float (Nat.eqb j l)) (seq 0 num_classes)) y.

(** Modelled from the spec: [advertorch.attacks.utils.is_successful] is not
    among the sources; "succeeds if (targeted and pred == target) or (not
    targeted and pred != true)". *)
Definition is_successful (pred label : Z) (targeted : bool) : bool :=
  if targeted then Z.eqb pred label else negb (Z.eqb pred label).

(** ** The attack object *)

Record ElasticNetL1Attack := {
  num_classes : nat;
  confidence : Q;
  targeted : bool;
  learning_rate : Q;
  binary_search_steps : nat;
  max_iterations : nat;
  abort_early : bool;
  initial_const : Q;
  clip_min : Q;
  clip_max : Q;
  beta : Q;
  decision_rule : string;
  repeat : bool
}.

(** [__init__] (lines 61-92).  [predict] is the section variable below;
    [loss_fn] is overwritten with [None] and plays no role.  No argument is
    validated. *)
Definition __init__ (num_classes : nat) (confidence : Q) (targeted : bool)
    (learning_rate : Q) (binary_search_steps max_iterations : nat)
    (abort_early : bool) (initial_const clip_min clip_max beta : Q)
    (decision_rule : string) : ElasticNetL1Attack :=
  {| num_classes := num_classes;
     confidence := confidence;
     targeted := targeted;
     learning_rate := learning_rate;
     binary_search_steps := binary_search_steps;
     max_iterations := max_iterations;
     abort_early := abort_early;
     initial_const := initial_const;
     clip_min := clip_min;
     clip_max := clip_max;
     beta := beta;
     decision_rule := decision_rule;
     repeat := Nat.leb REPEAT_STEP binary_search_steps |}.

(** ** Losses (lines 95-127) *)

Definition _loss_fn (self : ElasticNetL1Attack)
    (output y_onehot : list (list Q)) (l1dist l2distsq const : list Q) : Q :=
  let real := map tsum (tmap2 Qmult y_onehot output) in
  let other :=
    map row_max
      (tmap2 Qminus
         (tmap2 Qmult (tmap (fun v => 1 - v) y_onehot) output)
         (tmap (fun v => v * TARGET_MULT) y_onehot)) in
  let loss1 :=
    if targeted self then
      map (fun v => clamp v (Some 0) None)
        (map (fun v => v + confidence self) (zip_with Qminus other real))
    else
      map (fun v => clamp v (Some 0) None)
        (map (fun v => v + confidence self) (zip_with Qminus real other)) in
  let loss21 := tsum l1dist in
  let loss2 := tsum l2distsq in
  let loss1 := tsum (zip_with Qmult const loss1) in
  let loss := loss1 + loss2 + (beta self * loss21) in
  loss.

Definition _loss_opt_fn (self : ElasticNetL1Attack)
    (output_y y_onehot : list (list Q)) (l2distsq_y const : list Q) : Q :=
  let real_y := map tsum (tmap2 Qmult y_onehot output_y) in
  let other_y :=
    map row_max
      (tmap2 Qminus
         (tmap2 Qmult (tmap (fun v => 1 - v) y_onehot) output_y)
         (tmap (fun v => v * TARGET_MULT) y_onehot)) in
  let loss1_y :=
    if targeted self then
      map (fun v => clamp v (Some 0) None)
        (map (fun v => v + confidence self) (zip_with Qminus other_y real_y))
    else
      map (fun v => clamp v (Some 0) None)
        (map (fun v => v + confidence self) (zip_with Qminus real_y other_y)) in
  let loss1_y := tsum (zip_with Qmult const loss1_y) in
  let loss2_y := tsum l2distsq_y in
  let loss_opt := loss1_y + loss2_y in
  loss_opt.

(** ** Success predicate (lines 129-144)

    The Python method is dynamically typed in [output]: with
    [is_logits=True] it receives the N x C score tensor and a label vector,
    with [is_logits=False] one predicted label and one label. *)

(** The confidence-adjusted decision on one row of scores. *)
Definition adjusted_row (self : ElasticNetL1Attack) (row : list Q) (label : nat)
    : list Q :=
  alter (fun v => if targeted self then v - confidence self
                  else v + confidence self) label row.

Definition succeeds_on (self : ElasticNetL1Attack) (row : list Q) (label : nat)
    : bool :=
  is_successful (Z.of_nat (argmax (adjusted_row self row label)))
    (Z.of_nat label) (targeted self).

(** [_is_successful(output, label, True)]. *)
Definition _is_successful_logits (self : ElasticNetL1Attack)
    (output : scores) (label : list nat) : list bool :=
  zip_with (succeeds_on self) output label.

(** [_is_successful(pred, label, False)]. *)
Definition _is_successful_label (self : ElasticNetL1Attack)
    (output : Z) (label : nat) : bool :=
  let pred := output in
  if Z.eqb pred INVALID_LABEL then false
  else is_successful pred (Z.of_nat label) (targeted self).

(** ** Proximal projection (lines 147-161) *)

Definition _fast_iterative_shrinkage_thresholding (self : ElasticNetL1Attack)
    (global_step : nat) (x slack newimg : batch) : batch * batch :=
  let zt := inject_Z (Z.of_nat global_step)
            / inject_Z (Z.of_nat (global_step + 3)) in
  let upper :=
    tmap (fun v => clamp (v - beta self) None (Some (clip_max self))) slack in
  let lower :=
    tmap (fun v => clamp (v + beta self) (Some (clip_min self)) None) slack in
  let diff := tmap2 Qminus slack x in
  let cond1 := tmap (fun d => float (Qltb (beta self) d)) diff in
  let cond2 := tmap (fun d => float (Qle_bool (Qabs d) (beta self))) diff in
  let cond3 := tmap (fun d => float (Qltb d (- beta self))) diff in
  let assign_newimg :=
    tmap2 Qplus
      (tmap2 Qplus (tmap2 Qmult cond1 upper) (tmap2 Qmult cond2 x))
      (tmap2 Qmult cond3 lower) in
  let slack' :=
    tmap2 Qplus assign_newimg
      (tmap (Qmult zt) (tmap2 Qminus assign_newimg newimg)) in
  (slack', assign_newimg).

(** ** Exceptions and control flow *)

(** The one exception the method bodies themselves can raise: reading the
    local [crit] in [run] when no branch has bound it. *)
Inductive exn := UnboundLocalError.

(** Outcome of one loop body. *)
Inductive flow (S : Type) :=
  | Next (s : S)
  | Break (s : S)
  | Raise (e : exn) (s : S).
Arguments Next {S} s.
Arguments Break {S} s.
Arguments Raise {S} e s.

(** Outcome of a loop or a method; [Raised] keeps the state reached when the
    exception left the body. *)
Inductive result (S : Type) :=
  | Ok (s : S)
  | Raised (e : exn) (s : S).
Arguments Ok {S} s.
Arguments Raised {S} e s.

(** ** Best-candidate bookkeeping (lines 191-210) *)

(** The five tensors [_update_if_smaller_dist_succeed] writes.  [calls] is a
    ghost field: the arguments [(adv_img, output, dist)] of every call so
    far, newest first.  The program never reads it. *)
Record tracking := {
  cur_dist : list Q;
  cur_labels : list Z;
  final_dist : list Q;
  final_labels : list Z;
  final_advs : batch;
  calls : list (batch * scores * list Q)
}.

Definition _update_if_smaller_dist_succeed (self : ElasticNetL1Attack)
    (adv_img : batch) (labs : list nat) (output : scores) (dist : list Q)
    (batch_size : nat) (t : tracking) : tracking :=
  let target_label := labs in
  let output_logits := output in
  let output_label := map (fun row => Z.of_nat (argmax row)) output_logits in
  let mask :=
    zip_with andb (zip_with Qltb dist (cur_dist t))
      (_is_successful_logits self output_logits target_label) in
  let cur_dist' := masked_assign mask dist (cur_dist t) in
  let cur_labels' := masked_assign mask output_label (cur_labels t) in
  let mask :=
    zip_with andb (zip_with Qltb dist (final_dist t))
      (_is_successful_logits self output_logits target_label) in
  {| cur_dist := cur_dist';
     cur_labels := cur_labels';
     final_dist := masked_assign mask dist (final_dist t);
     final_labels := masked_assign mask output_label (final_labels t);
     final_advs := masked_assign mask adv_img (final_advs t);
     calls := (adv_img, output, dist) :: calls t |}.

(** ** Coefficient update (lines 213-235)

    The three per-sample tensors allocated at lines 248-250 live in a store;
    Python variables hold references to them, so that two names can denote
    one tensor (line 280 rebinds [loss_coeffs]). *)

Inductive tensor_ref := RefLower | RefUpper | RefCoeffs.

Record coeff_store := {
  lower_tensor : list Q;   (* x.new_zeros(batch_size), line 248 *)
  upper_tensor : list Q;   (* x.new_ones(batch_size) * COEFF_UPPER, line 249 *)
  coeffs_tensor : list Q   (* ones_like(y).float() * initial_const, line 250 *)
}.

Definition deref (s : coeff_store) (r : tensor_ref) : list Q :=
  match r with
  | RefLower => lower_tensor s
  | RefUpper => upper_tensor s
  | RefCoeffs => coeffs_tensor s
  end.

(** [t[ii]]; torch raises on an index out of range, the model reads 0. *)
Definition rd (s : coeff_store) (r : tensor_ref) (ii : nat) : Q :=
  default 0 (deref s r !! ii).

(** [t[ii] = v], in place; torch raises on an index out of range, the model
    leaves the tensor as it is. *)
Definition wr (s : coeff_store) (r : tensor_ref) (ii : nat) (v : Q)
    : coeff_store :=
  match r with
  | RefLower =>
      {| lower_tensor := <[ii:=v]> (lower_tensor s);
         upper_tensor := upper_tensor s;
         coeffs_tensor := coeffs_tensor s |}
  | RefUpper =>
      {| lower_tensor := lower_tensor s;
         upper_tensor := <[ii:=v]> (upper_tensor s);
         coeffs_tensor := coeffs_tensor s |}
  | RefCoeffs =>
      {| lower_tensor := lower_tensor s;
         upper_tensor := upper_tensor s;
         coeffs_tensor := <[ii:=v]> (coeffs_tensor s) |}
  end.

(** Body of the [for ii in range(batch_size)] loop, lines 220-235. *)
Definition update_loss_coeffs_at (self : ElasticNetL1Attack)
    (labs : list nat) (cur_labels : list Z)
    (loss_coeffs coeff_upper_bound coeff_lower_bound : tensor_ref)
    (s : coeff_store) (ii : nat) : coeff_store :=
  if _is_successful_label self (default 0%Z (cur_labels !! ii))
       (default 0%nat (labs !! ii)) then
    let s := wr s coeff_upper_bound ii
               (py_min (rd s coeff_upper_bound ii) (rd s loss_coeffs ii)) in
    if Qltb (rd s coeff_upper_bound ii) UPPER_CHECK then
      wr s loss_coeffs ii
        ((rd s coeff_lower_bound ii + rd s coeff_upper_bound ii) / 2)
    else s
  else
    let s := wr s coeff_lower_bound ii
               (py_max (rd s coeff_lower_bound ii) (rd s loss_coeffs ii)) in
    if Qltb (rd s coeff_upper_bound ii) UPPER_CHECK then
      wr s loss_coeffs ii
        ((rd s coeff_lower_bound ii + rd s coeff_upper_bound ii) / 2)
    else
      wr s loss_coeffs ii (rd s loss_coeffs ii * 10).

Definition _update_loss_coeffs (self : ElasticNetL1Attack)
    (labs : list nat) (cur_labels : list Z) (batch_size : nat)
    (loss_coeffs coeff_upper_bound coeff_lower_bound : tensor_ref)
    (s : coeff_store) : coeff_store :=
  foldl
    (update_loss_coeffs_at self labs cur_labels
       loss_coeffs coeff_upper_bound coeff_lower_bound)
    s (seq 0 batch_size).

(** ** The optimisation loops (lines 164-188 and 238-314) *)

(** State of one inner optimisation run: [self.global_step], the
    optimizer's current learning rate, and the locals [slack], [newimg] and
    [prevloss]. *)
Record opt_state := {
  o_global_step : nat;
  o_lr : Q;
  o_slack : batch;
  o_newimg : batch;
  o_prevloss : Q
}.

(** Locals of [perturb] that outlive an outer step.  [loss_coeffs] is the
    tensor the variable of that name currently refers to;
    [self_global_step] is the attribute [self.global_step]. *)
Record perturb_locals := {
  store : coeff_store;
  loss_coeffs : tensor_ref;
  track : tracking;
  self_global_step : nat
}.

Section Attack.

(** The forward pass [self.predict]. *)
Variable predict : batch → scores.

(** Autograd: the gradient of [_loss_opt_fn] with respect to [slack] that
    [loss_opt.backward()] leaves in [slack.grad], as a function of
    [x], [slack], [y_onehot] and [loss_coeffs]. *)
Variable backward : batch → batch → list (list Q) → list Q → batch.

(** [advertorch.utils.polynomial_decay] is not among the sources (and its
    power 0.5 is not rational); it is taken as a parameter: the learning
    rate it stores in the optimizer, from [learning_rate], [global_step],
    [decay_steps], [end_learning_rate] and [power]. *)
Variable polynomial_decay : Q → nat → nat → Q → Q → Q.

(** [LabelMixin._get_predicted_label], used when no label is given. *)
Variable _get_predicted_label : batch → list nat.

Variable self : ElasticNetL1Attack.

(** [train]: one step of plain SGD ([optim.SGD([slack], lr)]) on the
    optimisation loss, then [self.global_step += 1].  The loss value
    itself only feeds [backward]. *)
Definition train (lr : Q) (global_step : nat)
    (x slack : batch) (y_onehot : list (list Q)) (loss_coeffs : list Q)
    : batch * nat :=
  let grad := backward x slack y_onehot loss_coeffs in
  let slack := tmap2 (fun s g => s - lr * g) slack grad in
  (slack, S global_step).

(** [run] (lines 175-188).  [crit] is bound by neither branch when the
    decision rule is not EN or L1; line 188 then raises. *)
Definition run (x newimg : batch) (y_onehot : list (list Q))
    (loss_coeffs : list Q) : exn + (Q * list Q * scores) :=
  let output := predict newimg in
  let l2distsq := calc_l2distsq newimg x in
  let l1dist := calc_l1dist newimg x in
  let crit :=
    if String.eqb (decision_rule self) "EN" then
      Some (zip_with Qplus l2distsq (map (fun v => v * beta self) l1dist))
    else if String.eqb (decision_rule self) "L1" then
      Some l1dist
    else None in
  let loss := _loss_fn self output y_onehot l1dist l2distsq loss_coeffs in
  match crit with
  | Some crit => inr (loss, crit, output)
  | None => inl UnboundLocalError
  end.

(** Body of [for ii in range(self.max_iterations)], lines 284-308. *)
Definition inner_iteration (x : batch) (y : list nat)
    (y_onehot : list (list Q)) (loss_coeffs : list Q) (batch_size : nat)
    (ii : nat) (st : opt_state * tracking) : flow (opt_state * tracking) :=
  let '(o, t) := st in
  let '(slack, global_step) :=
    train (o_lr o) (o_global_step o) x (o_slack o) y_onehot loss_coeffs in
  let lr :=
    polynomial_decay (learning_rate self) global_step
      (max_iterations self) 0 0.5 in
  let '(slack, newimg) :=
    _fast_iterative_shrinkage_thresholding self global_step x slack
      (o_newimg o) in
  let o' prevloss :=
    {| o_global_step := global_step; o_lr := lr; o_slack := slack;
       o_newimg := newimg; o_prevloss := prevloss |} in
  match run x newimg y_onehot loss_coeffs with
  | inl e => Raise e (o' (o_prevloss o), t)
  | inr (loss, dist, output) =>
      let adv_img := newimg in
      let every :=
        if Nat.eqb (max_iterations self / NUM_CHECKS) 0 then 1%nat
        else (max_iterations self / NUM_CHECKS)%nat in
      let checked := abort_early self && Nat.eqb (ii mod every) 0 in
      if checked && Qltb (o_prevloss o * ONE_MINUS_EPS) loss then
        Break (o' (o_prevloss o), t)
      else
        let prevloss := if checked then loss else o_prevloss o in
        Next (o' prevloss,
              _update_if_smaller_dist_succeed self adv_img y output dist
                batch_size t)
  end.

Fixpoint inner_loop (x : batch) (y : list nat) (y_onehot : list (list Q))
    (loss_coeffs : list Q) (batch_size : nat)
    (iters : list nat) (st : opt_state * tracking)
    : result (opt_state * tracking) :=
  match iters with
  | [] => Ok st
  | ii :: iters' =>
      match inner_iteration x y y_onehot loss_coeffs batch_size ii st with
      | Next st' => inner_loop x y y_onehot loss_coeffs batch_size iters' st'
      | Break st' => Ok st'
      | Raise e st' => Raised e st'
      end
  end.

(** Body of [for outer_step in range(self.binary_search_steps)],
    lines 264-312. *)
Definition outer_iteration (x : batch) (y : list nat)
    (y_onehot : list (list Q)) (batch_size : nat)
    (outer_step : nat) (l : perturb_locals) : result perturb_locals :=
  let o :=
    {| o_global_step := 0; o_lr := learning_rate self; o_slack := x;
       o_newimg := x; o_prevloss := PREV_LOSS_INIT |} in
  let t :=
    {| cur_dist := replicate batch_size DIST_UPPER;
       cur_labels := replicate batch_size INVALID_LABEL;
       final_dist := final_dist (track l);
       final_labels := final_labels (track l);
       final_advs := final_advs (track l);
       calls := calls (track l) |} in
  let loss_coeffs :=
    if repeat self && Nat.eqb outer_step (binary_search_steps self - 1)
    then RefUpper else loss_coeffs l in
  match
    inner_loop x y y_onehot (deref (store l) loss_coeffs) batch_size
      (seq 0 (max_iterations self)) (o, t)
  with
  | Raised e (o, t) =>
      Raised e
        {| store := store l; loss_coeffs := loss_coeffs; track := t;
           self_global_step := o_global_step o |}
  | Ok (o, t) =>
      Ok {| store :=
              _update_loss_coeffs self y (cur_labels t) batch_size
                loss_coeffs RefUpper RefLower (store l);
            loss_coeffs := loss_coeffs;
            track := t;
            self_global_step := o_global_step o |}
  end.

Fixpoint outer_loop (x : batch) (y : list nat) (y_onehot : list (list Q))
    (batch_size : nat) (steps : list nat) (l : perturb_locals)
    : result perturb_locals :=
  match steps with
  | [] => Ok l
  | outer_step :: steps' =>
      match outer_iteration x y y_onehot batch_size outer_step l with
      | Ok l' => outer_loop x y y_onehot batch_size steps' l'
      | Raised e l' => Raised e l'
      end
  end.

(** Lines 240-259: the locals before the first outer step.
    [_verify_and_process_inputs] and [replicate_input] hand their
    arguments on.  [self.global_step] is first assigned at line 264; 0
    stands for the attribute before that. *)
Definition perturb_init (x : batch) (y : list nat) : perturb_locals :=
  let batch_size := length x in
  {| store :=
       {| lower_tensor := replicate batch_size 0;
          upper_tensor := replicate batch_size (1 * COEFF_UPPER);
          coeffs_tensor := map (fun _ => 1 * initial_const self) y |};
     loss_coeffs := RefCoeffs;
     track :=
       {| cur_dist := []; cur_labels := [];
          final_dist := replicate batch_size DIST_UPPER;
          final_labels := replicate batch_size INVALID_LABEL;
          final_advs := x;
          calls := [] |};
     self_global_step := 0 |}.

(** [perturb] up to its [return]: all locals, not only [final_advs]. *)
Definition perturb_locals_at_return (x : batch) (y : option (list nat))
    : result perturb_locals :=
  let y := match y with
           | None => _get_predicted_label x
           | Some y => y
           end in
  let batch_size := length x in
  let y_onehot := to_one_hot y (num_classes self) in
  outer_loop x y y_onehot batch_size (seq 0 (binary_search_steps self))
    (perturb_init x y).

(** [perturb]: the returned tensor, or the exception. *)
Definition perturb (x : batch) (y : option (list nat)) : exn + batch :=
  match perturb_locals_at_return x y with
  | Ok l => inr (final_advs (track l))
  | Raised e _ => inl e
  end.

End Attack.

(** * Auxiliary notions for the statements *)

(** Two stores that hold the same entries at position [i]. *)
Definition agree_at (i : nat) (s1 s2 : coeff_store) : Prop :=
  ∀ r, deref s1 r !! i = deref s2 r !! i.

(** Entry [(i, j)] of an N x D tensor. *)
Definition at2 (t : list (list Q)) (i j : nat) : option Q :=
  t !! i ≫= (.!! j).

(** The state a loop or method ended in, returned or raised. *)
Definition state_of {S} (r : result S) : S :=
  match r with
  | Ok s => s
  | Raised _ s => s
  end.

(** Element-wise reading of line 159 at one entry of [slack] and [x]. *)
Definition assign_newimg_at (self : ElasticNetL1Attack) (sv xv : Q) : Q :=
  float (Qltb (beta self) (sv - xv))
    * clamp (sv - beta self) None (Some (clip_max self))
  + float (Qle_bool (Qabs (sv - xv)) (beta self)) * xv
  + float (Qltb (sv - xv) (- beta self))
    * clamp (sv + beta self) (Some (clip_min self)) None.

(** The proximal projection as the specification words it (section 4.3):
    the three-way case split on [diff = slack - x], then the momentum
    extrapolation with [zt = step / (step + 3)]. *)
Definition fista_as_specified (self : ElasticNetL1Attack) (global_step : nat)
    (x slack newimg : batch) : Prop :=
  let '(slack', candidate) :=
    _fast_iterative_shrinkage_thresholding self global_step x slack newimg in
  let step := inject_Z (Z.of_nat global_step) in
  let zt := step / (step + 3) in
  ∀ i j xv sv nv,
    at2 x i j = Some xv → at2 slack i j = Some sv → at2 newimg i j = Some nv →
    ∃ c s',
      at2 candidate i j = Some c ∧ at2 slack' i j = Some s' ∧
      (beta self < sv - xv → c == Qmin (sv - beta self) (clip_max self)) ∧
      (Qabs (sv - xv) <= beta self → c == xv) ∧
      (sv - xv < - beta self → c == Qmax (sv + beta self) (clip_min self)) ∧
      s' == c + zt * (c - nv).

(** Every element of every sample lies in [[clip_min, clip_max]]. *)
Definition in_box (self : ElasticNetL1Attack) (b : batch) : Prop :=
  Forall (Forall (fun v => clip_min self <= v <= clip_max self)) b.

(** ** Concrete instances used to evaluate the model *)

(** A two-class linear classifier on the sum of a sample's entries. *)
Definition demo_predict1 (img : image) : list Q := [1 - tsum img; tsum img].
Definition demo_predict (b : batch) : scores := map demo_predict1 b.

(** A constant gradient -1 in every coordinate: each SGD step raises every
    entry of [slack] by the learning rate. *)
Definition demo_backward (x slack : batch) (y_onehot : list (list Q))
    (loss_coeffs : list Q) : batch :=
  map (map (fun _ => -1)) slack.

(** A schedule that keeps the learning rate. *)
Definition demo_decay (lr : Q) (global_step decay_steps : nat)
    (end_lr power : Q) : Q := lr.

Definition demo_get_predicted_label (b : batch) : list nat :=
  map (fun img => argmax (demo_predict1 img)) b.

(** A classifier that always answers class 0, and a zero gradient. *)
Definition stuck_predict (b : batch) : scores := map (fun _ => [1; 0]) b.
Definition stuck_backward (x slack : batch) (y_onehot : list (list Q))
    (loss_coeffs : list Q) : batch :=
  map (map (fun _ => 0)) slack.

(** Untargeted attack, 2 classes, 2 outer steps of 5 iterations. *)
Definition demo_attack : ElasticNetL1Attack :=
  __init__ 2 0 false 0.1 2 5 false 0.001 0 1 0.01 "EN".

(** One outer step of one iteration. *)
Definition tiny_attack : ElasticNetL1Attack :=
  __init__ 2 0 false 0.1 1 1 false 0.001 0 1 0.01 "EN".

(** The same with a negative [beta]. *)
Definition neg_beta_attack : ElasticNetL1Attack :=
  __init__ 2 0 false 0.1 1 1 false 0.001 0 1 (-0.1) "EN".

(** ** The losses as the specification words them (section 4.4) *)

(** Score of the selected (true or target) class. *)
Definition spec_real (row : list Q) (label : nat) : Q :=
  default 0 (row !! label).

(** The row with the selected class masked out: its entry is replaced by
    the large negative [- TARGET_MULT]. *)
Definition masked_scores (row : list Q) (label : nat) : list Q :=
  imap (fun j v => if Nat.eqb j label then - TARGET_MULT else v) row.

(** Best score among the other classes, by masking. *)
Definition spec_other (row : list Q) (label : nat) : Q :=
  row_max (masked_scores row label).

Definition spec_margin (self : ElasticNetL1Attack) (row : list Q) (label : nat)
    : Q :=
  let real := spec_real row label in
  let other := spec_other row label in
  if targeted self then Qmax (other - real + confidence self) 0
  else Qmax (real - other + confidence self) 0.

Definition spec_full_loss (self : ElasticNetL1Attack) (output : scores)
    (y : list nat) (l1dist l2distsq coeff : list Q) : Q :=
  tsum (zip_with Qmult coeff (zip_with (spec_margin self) output y))
  + tsum l2distsq + beta self * tsum l1dist.

Definition spec_opt_loss (self : ElasticNetL1Attack) (output : scores)
    (y : list nat) (l2distsq coeff : list Q) : Q :=
  tsum (zip_with Qmult coeff (zip_with (spec_margin self) output y))
  + tsum l2distsq.

(** The coefficient tensors of a one-sample batch before the first outer
    step. *)
Definition demo_store : coeff_store :=
  {| lower_tensor := [0]; upper_tensor := [COEFF_UPPER];
     coeffs_tensor := [0.001] |}.

(** ** Notions for the whole run *)

(** The decision-rule criterion of one image against one original sample,
    as [run] computes it row by row (lines 179-185). *)
Definition sample_criterion (self : ElasticNetL1Attack) (img xi : list Q)
    : option Q :=
  let l2distsq := tsum (zip_with (fun p q => (p - q) * (p - q)) img xi) in
  let l1dist := tsum (zip_with (fun p q => Qabs (p - q)) img xi) in
  if String.eqb (decision_rule self) "EN" then
    Some (l2distsq + l1dist * beta self)
  else if String.eqb (decision_rule self) "L1" then Some l1dist
  else None.

(** A recorded call of the bookkeeping whose arguments come out of one
    inner iteration: the image is a candidate of the proximal projection,
    the scores and distortions are what [run] computed on it. *)
Definition call_sound (predict : list (list Q) → list (list Q))
    (self : ElasticNetL1Attack) (x : list (list Q)) (y_onehot : list (list Q))
    (c : list (list Q) * list (list Q) * list Q) : Prop :=
  (∃ gs slack prev,
     c.1.1 = snd (_fast_iterative_shrinkage_thresholding self gs x slack prev))
  ∧ ∃ lc loss, run predict self x c.1.1 y_onehot lc = inr (loss, c.2, c.1.2).

(** The invariant of the all-time-best accumulators: every sample is
    either still at its initial value, or holds the image, distortion and
    arg-max label of one recorded successful candidate. *)
Definition tracking_inv (predict : list (list Q) → list (list Q))
    (self : ElasticNetL1Attack) (x : list (list Q)) (y : list nat)
    (y_onehot : list (list Q)) (t : tracking) : Prop :=
  length (final_dist t) = length x ∧
  length (final_labels t) = length x ∧
  length (final_advs t) = length x ∧
  Forall (call_sound predict self x y_onehot) (calls t) ∧
  ∀ i, (i < length x)%nat →
    (final_dist t !! i = Some DIST_UPPER ∧
     final_labels t !! i = Some INVALID_LABEL ∧
     final_advs t !! i = x !! i)
    ∨ ∃ adv out dist img row d,
        (adv, out, dist) ∈ calls t ∧
        _is_successful_logits self out y !! i = Some true ∧
        adv !! i = Some img ∧ out !! i = Some row ∧ dist !! i = Some d ∧
        final_advs t !! i = Some img ∧
        final_dist t !! i = Some d ∧
        final_labels t !! i = Some (Z.of_nat (argmax row)).

(** [final_dist[i]] did not grow from [t] to [t']. *)
Definition final_dist_le (i : nat) (t t' : tracking) : Prop :=
  ∀ d, final_dist t !! i = Some d →
    ∃ d', final_dist t' !! i = Some d' ∧ d' <= d.

(** No recorded call among [cs] was a confidence-adjusted success for
    sample [i]. *)
Definition no_success_at (self : ElasticNetL1Attack) (y : list nat) (i : nat)
    (cs : list (list (list Q) * list (list Q) * list Q)) : Prop :=
  ∀ adv out dist, (adv, out, dist) ∈ cs →
    _is_successful_logits self out y !! i ≠ Some true.

(** The state a loop body ended in. *)
Definition flow_state {S} (f : flow S) : S :=
  match f with
  | Next s => s
  | Break s => s
  | Raise _ s => s
  end.

(** [t] with the per-step accumulators [cur_dist] and [cur_labels]
    replaced, as at the start of an outer step (lines 271-275). *)
Definition reset_cur (cd : list Q) (cl : list Z) (t : tracking) : tracking :=
  {| cur_dist := cd; cur_labels := cl;
     final_dist := final_dist t; final_labels := final_labels t;
     final_advs := final_advs t; calls := calls t |}.

(** The label vector [perturb] works with (lines 243-244). *)
Definition labels_used (_get_predicted_label : list (list Q) → list nat)
    (x : list (list Q)) (y : option (list nat)) : list nat :=
  match y with
  | None => _get_predicted_label x
  | Some y => y
  end.

(** In the inner loop that started with recorded calls [c0] and
    [cur_labels[i] = cl0]: as long as none of the calls made since was a
    success for sample [i], [cur_labels[i]] is unchanged. *)
Definition cur_label_kept (self : ElasticNetL1Attack) (y : list nat) (i : nat)
    (c0 : list (list (list Q) * list (list Q) * list Q)) (cl0 : option Z)
    (t : tracking) : Prop :=
  ∃ new, calls t = new ++ c0 ∧
         (no_success_at self y i new → cur_labels t !! i = cl0).

(** An attack constructed with a decision rule that is neither EN nor L1,
    and the same with no inner iteration. *)
Definition bad_rule_attack : ElasticNetL1Attack :=
  __init__ 2 0 false 0.1 1 1 false 0.001 0 1 0.01 "L2".
Definition bad_rule_idle_attack : ElasticNetL1Attack :=
  __init__ 2 0 false 0.1 1 0 false 0.001 0 1 0.01 "L2".

(** Ten outer steps of one iteration: [repeat] is set. *)
Definition ten_step_attack : ElasticNetL1Attack :=
  __init__ 2 0 false 0.1 10 1 false 0.001 0 1 0.01 "EN".

(** * Further notions for the whole run *)

(** The three all-time-best accumulators move together: sample [i] is
    either at its sentinels, or has a class label and a distortion strictly
    below [DIST_UPPER]. *)
Definition final_coherent (x : list (list Q)) (t : tracking) : Prop :=
  length (final_dist t) = length x ∧
  length (final_labels t) = length x ∧
  length (final_advs t) = length x ∧
  ∀ i, (i < length x)%nat →
    (final_labels t !! i = Some INVALID_LABEL ∧
     final_dist t !! i = Some DIST_UPPER ∧
     final_advs t !! i = x !! i)
    ∨ ∃ lab d, final_labels t !! i = Some lab ∧ (0 <= lab)%Z ∧
               final_dist t !! i = Some d ∧ d < DIST_UPPER.


(** The all-time best is never worse than the best of the current outer
    step; both stay at or below [DIST_UPPER]; a class label goes with a
    distortion strictly below [DIST_UPPER], for the step and overall. *)
Definition final_le_cur (t : tracking) : Prop :=
  length (final_labels t) = length (final_dist t) ∧
  ∀ i,
    (∀ d, final_dist t !! i = Some d → d <= DIST_UPPER) ∧
    (∀ c, cur_dist t !! i = Some c → c <= DIST_UPPER) ∧
    (∀ c d, cur_dist t !! i = Some c → final_dist t !! i = Some d → d <= c) ∧
    (∀ lab, cur_labels t !! i = Some lab → lab ≠ INVALID_LABEL →
       ∃ c, cur_dist t !! i = Some c ∧ c < DIST_UPPER) ∧
    (∀ d, final_dist t !! i = Some d → d < DIST_UPPER →
       ∃ lab, final_labels t !! i = Some lab ∧ lab ≠ INVALID_LABEL).

(** Position [k] holds the first largest entry of [row]: everything before
    is strictly smaller, everything after is at most as large. *)
Definition is_argmax (row : list Q) (k : nat) : Prop :=
  ∃ v, row !! k = Some v ∧
       (∀ j u, (j < k)%nat → row !! j = Some u → u < v) ∧
       (∀ j u, (k < j)%nat → row !! j = Some u → u <= v).

(** A class label in [cur_labels[i]] is the arg-max of a row of scores on
    which the logits-mode predicate succeeded for the label [y[i]]. *)
Definition cur_label_sound (self : ElasticNetL1Attack) (y : list nat) (i : nat)
    (t : tracking) : Prop :=
  ∀ lab, cur_labels t !! i = Some lab → lab ≠ INVALID_LABEL →
    ∃ row label, y !! i = Some label ∧ lab = Z.of_nat (argmax row) ∧
                 succeeds_on self row label = true.

(** * Properties *)

(** ** Scalars *)

Lemma Qltb_lt (a b : Q) : Qltb a b = true ↔ a < b.
Proof.
  unfold Qltb. rewrite negb_true_iff. split.
  - intros H. apply Qnot_le_lt. intros Hle.
    apply Qle_bool_iff in Hle. congruence.
  - intros H. destruct (Qle_bool b a) eqn:E; [|reflexivity].
    apply Qle_bool_iff in E. exfalso. exact (Qlt_not_le _ _ H E).
Qed.

Lemma Qltb_ge (a b : Q) : Qltb a b = false ↔ b <= a.
Proof.
  unfold Qltb. rewrite negb_false_iff. apply Qle_bool_iff.
Qed.

Lemma py_min_le_l (a b : Q) : py_min a b <= a.
Proof.
  unfold py_min. destruct (Qltb b a) eqn:E.
  - apply Qltb_lt in E. lra.
  - lra.
Qed.

Lemma py_max_ge_l (a b : Q) : a <= py_max a b.
Proof.
  unfold py_max. destruct (Qltb a b) eqn:E.
  - apply Qltb_lt in E. lra.
  - lra.
Qed.

Lemma py_min_Qmin (a b : Q) : py_min a b = Qmin a b.
Proof.
  unfold py_min, Qmin, GenericMinMax.gmin.
  destruct (Qcompare_spec a b) as [H|H|H], (Qltb b a) eqn:E;
    try reflexivity; try (apply Qltb_lt in E; lra); apply Qltb_ge in E; lra.
Qed.

Lemma py_max_Qmax (a b : Q) : py_max a b = Qmax a b.
Proof.
  unfold py_max, Qmax, GenericMinMax.gmax.
  destruct (Qcompare_spec a b) as [H|H|H], (Qltb a b) eqn:E;
    try reflexivity; try (apply Qltb_lt in E; lra); apply Qltb_ge in E; lra.
Qed.

(** ** Masked assignment *)

Lemma lookup_masked_assign {A} (mask : list bool) (src dst : list A) (i : nat) :
  masked_assign mask src dst !! i =
    match dst !! i with
    | None => None
    | Some d =>
        match mask !! i, src !! i with
        | Some true, Some s => Some s
        | _, _ => Some d
        end
    end.
Proof.
  revert mask src i.
  induction dst as [|d dst IH]; intros mask src i; [destruct i; reflexivity|].
  destruct mask as [|m mask], src as [|s src], i as [|i]; simpl; try done.
  - by destruct (dst !! i).
  - by destruct (dst !! i).
  - by destruct m.
  - destruct (dst !! i); [|done]. by destruct (mask !! i) as [[]|].
  - by destruct m.
Qed.

Lemma length_masked_assign {A} (mask : list bool) (src dst : list A) :
  length (masked_assign mask src dst) = length dst.
Proof.
  revert mask src. induction dst as [|d dst IH]; intros [|m mask] [|s src];
    simpl; auto.
Qed.

Lemma masked_assign_Forall {A} (P : A → Prop) mask (src dst : list A) :
  Forall P src → Forall P dst → Forall P (masked_assign mask src dst).
Proof.
  intros Hs Hd. apply Forall_lookup. intros i v.
  rewrite lookup_masked_assign.
  destruct (dst !! i) as [d|] eqn:Ed; [|done].
  pose proof (Forall_lookup_1 _ _ _ _ Hd Ed) as Pd.
  destruct (mask !! i) as [[]|]; [|congruence..].
  destruct (src !! i) as [s|] eqn:Es; [|congruence].
  pose proof (Forall_lookup_1 _ _ _ _ Hs Es). congruence.
Qed.

(** ** The coefficient store *)

Lemma length_deref_wr s r j v r' :
  length (deref (wr s r j v) r') = length (deref s r').
Proof. destruct r, r'; simpl; by rewrite ?length_insert. Qed.

Lemma deref_wr_ne s r j v r' i :
  i ≠ j → deref (wr s r j v) r' !! i = deref s r' !! i.
Proof.
  intros Hne. destruct r, r'; simpl; try done;
    by rewrite list_lookup_insert_ne.
Qed.

Lemma rd_wr_eq s r j v :
  (j < length (deref s r))%nat → rd (wr s r j v) r j = v.
Proof.
  intros Hlt. unfold rd.
  destruct r; simpl in *; by rewrite list_lookup_insert_eq.
Qed.

Lemma rd_wr_other s r j v r' i :
  r ≠ r' → rd (wr s r j v) r' i = rd s r' i.
Proof. intros Hne. unfold rd. by destruct r, r'. Qed.

Lemma agree_at_rd i s1 s2 r : agree_at i s1 s2 → rd s1 r i = rd s2 r i.
Proof. intros H. unfold rd. by rewrite H. Qed.

Lemma agree_at_length i s1 s2 r :
  agree_at i s1 s2 →
  (i < length (deref s1 r))%nat ↔ (i < length (deref s2 r))%nat.
Proof.
  intros H. rewrite <- !lookup_lt_is_Some. by rewrite H.
Qed.

Lemma update_loss_coeffs_at_other self labs cur lc ub lb s j i :
  i ≠ j → agree_at i (update_loss_coeffs_at self labs cur lc ub lb s j) s.
Proof.
  intros Hne r. unfold update_loss_coeffs_at.
  repeat match goal with
         | |- context [if ?c then _ else _] => destruct c
         end;
    by rewrite ?deref_wr_ne.
Qed.

Lemma update_loss_coeffs_others self labs cur lc ub lb (l : list nat) s i :
  i ∉ l →
  agree_at i (foldl (update_loss_coeffs_at self labs cur lc ub lb) s l) s.
Proof.
  revert s. induction l as [|j l IH]; intros s Hni; [done|].
  apply not_elem_of_cons in Hni as [Hne Hni].
  simpl. intros r. rewrite IH by done.
  by apply update_loss_coeffs_at_other.
Qed.

(** The loop of [_update_loss_coeffs] acts on position [i] exactly as its
    body at [ii = i] acts on the entry state. *)
Lemma update_loss_coeffs_at_index self labs cur n lc ub lb s i :
  (i < n)%nat →
  ∃ s1, agree_at i s1 s ∧
        agree_at i (_update_loss_coeffs self labs cur n lc ub lb s)
          (update_loss_coeffs_at self labs cur lc ub lb s1 i).
Proof.
  intros Hlt. unfold _update_loss_coeffs.
  replace n with (i + S (n - S i))%nat by lia.
  rewrite seq_app, foldl_app. simpl.
  set (f := update_loss_coeffs_at self labs cur lc ub lb).
  exists (foldl f s (seq 0 i)). split.
  - apply update_loss_coeffs_others. rewrite elem_of_seq. lia.
  - apply update_loss_coeffs_others. rewrite elem_of_seq. lia.
Qed.

Lemma masked_assign_lookup_true {A} mask (src dst : list A) i s :
  mask !! i = Some true → src !! i = Some s → is_Some (dst !! i) →
  masked_assign mask src dst !! i = Some s.
Proof.
  intros Hm Hs [d Hd]. by rewrite lookup_masked_assign, Hd, Hm, Hs.
Qed.

Lemma masked_assign_lookup_other {A} mask (src dst : list A) i :
  mask !! i ≠ Some true → masked_assign mask src dst !! i = dst !! i.
Proof.
  intros Hm. rewrite lookup_masked_assign.
  destruct (dst !! i); [|done]. by destruct (mask !! i) as [[]|].
Qed.

(** A mask entry [(dist < best) & success] is true exactly when both
    operands are. *)
Lemma mask_lookup_true (dist best : list Q) (succ : list bool) i :
  zip_with andb (zip_with Qltb dist best) succ !! i = Some true ↔
  ∃ d b, dist !! i = Some d ∧ best !! i = Some b ∧ d < b ∧
         succ !! i = Some true.
Proof.
  rewrite !lookup_zip_with.
  destruct (dist !! i) as [d|], (best !! i) as [b|], (succ !! i) as [s|];
    simpl; split; try done; try (by intros (? & ? & ? & ? & ? & ?)).
  - intros [= H]. apply andb_true_iff in H as [H1 ->].
    apply Qltb_lt in H1. eauto 10.
  - intros (d' & b' & [= <-] & [= <-] & Hlt & [= ->]).
    apply Qltb_lt in Hlt. by rewrite Hlt.
Qed.

(** ** The coefficient update at one sample *)

Lemma py_min_idem (a : Q) : py_min a a = a.
Proof. unfold py_min. by destruct (Qltb a a). Qed.

Ltac rd_simpl :=
  repeat first
    [ rewrite rd_wr_eq by (rewrite ?length_deref_wr; simpl; done)
    | rewrite rd_wr_other by done
    | rewrite py_min_idem ].

(** What the loop body does to position [ii], read through the names the
    method uses; [loss_coeffs] may denote the tensor of [coeff_upper_bound]. *)
Lemma update_loss_coeffs_at_spec self labs cur lc s ii :
  lc ≠ RefLower →
  (ii < length (lower_tensor s))%nat →
  (ii < length (upper_tensor s))%nat →
  (ii < length (coeffs_tensor s))%nat →
  let s' := update_loss_coeffs_at self labs cur lc RefUpper RefLower s ii in
  let L := rd s RefLower ii in
  let U := rd s RefUpper ii in
  let C := rd s lc ii in
  if _is_successful_label self (default 0%Z (cur !! ii))
       (default 0%nat (labs !! ii))
  then
    rd s' RefLower ii = L ∧
    (lc = RefCoeffs → rd s' RefUpper ii = py_min U C) ∧
    rd s' lc ii =
      (if Qltb (py_min U C) UPPER_CHECK then (L + py_min U C) / 2 else C)
  else
    rd s' RefLower ii = py_max L C ∧
    (lc = RefCoeffs → rd s' RefUpper ii = U) ∧
    rd s' lc ii =
      (if Qltb U UPPER_CHECK then (py_max L C + U) / 2 else C * 10).
Proof.
  intros Hlc Hl Hu Hc. unfold update_loss_coeffs_at.
  destruct (_is_successful_label _ _ _), lc; try done; cbn zeta;
    rd_simpl;
    repeat match goal with
           | |- context [if ?c then _ else _] => destruct c
           end;
    rd_simpl; done.
Qed.

(** The same for the whole loop of [_update_loss_coeffs], at any sample
    [i] of the batch. *)
Lemma update_loss_coeffs_spec self labs cur n lc s i :
  lc ≠ RefLower →
  (i < n)%nat →
  (i < length (lower_tensor s))%nat →
  (i < length (upper_tensor s))%nat →
  (i < length (coeffs_tensor s))%nat →
  let s' := _update_loss_coeffs self labs cur n lc RefUpper RefLower s in
  let L := rd s RefLower i in
  let U := rd s RefUpper i in
  let C := rd s lc i in
  if _is_successful_label self (default 0%Z (cur !! i))
       (default 0%nat (labs !! i))
  then
    rd s' RefLower i = L ∧
    (lc = RefCoeffs → rd s' RefUpper i = py_min U C) ∧
    rd s' lc i =
      (if Qltb (py_min U C) UPPER_CHECK then (L + py_min U C) / 2 else C)
  else
    rd s' RefLower i = py_max L C ∧
    (lc = RefCoeffs → rd s' RefUpper i = U) ∧
    rd s' lc i =
      (if Qltb U UPPER_CHECK then (py_max L C + U) / 2 else C * 10).
Proof.
  intros Hlc Hi Hl Hu Hc s' L U C.
  destruct (update_loss_coeffs_at_index self labs cur n
              lc RefUpper RefLower s i Hi) as (s1 & Hs1 & Hs').
  fold s' in Hs'.
  pose proof (update_loss_coeffs_at_spec self labs cur lc s1 i Hlc) as Hspec.
  cbn zeta in Hspec.
  rewrite !(agree_at_rd _ _ _ _ Hs1) in Hspec.
  rewrite <- !(agree_at_rd _ _ _ _ Hs') in Hspec.
  fold L U C in Hspec.
  assert (Hlen : ∀ r, (i < length (deref s1 r))%nat ↔
                      (i < length (deref s r))%nat)
    by (intros r; by apply agree_at_length).
  exact (Hspec (proj2 (Hlen RefLower) Hl) (proj2 (Hlen RefUpper) Hu)
           (proj2 (Hlen RefCoeffs) Hc)).
Qed.

(** C7: the per-sample coefficient update of [_update_loss_coeffs].  With
    [L], [U], [C] the entries of [coeff_lower_bound], [coeff_upper_bound]
    and [loss_coeffs] at sample [i] on entry: an unsuccessful sample whose
    upper bound is not below [UPPER_CHECK] gets [loss_coeffs[i]] multiplied
    by 10; whenever the (updated) upper bound is below [UPPER_CHECK],
    [loss_coeffs[i]] becomes the midpoint of the (updated) bounds; on
    success the upper bound is lowered to [min(U, C)], on failure the lower
    bound is raised to [max(L, C)].  [loss_coeffs] is either its own
    tensor or, after line 280, the tensor of [coeff_upper_bound]. *)
Theorem update_loss_coeffs_per_sample self labs cur_labels batch_size lc s i :
  lc ≠ RefLower →
  (i < batch_size)%nat →
  (i < length (lower_tensor s))%nat →
  (i < length (upper_tensor s))%nat →
  (i < length (coeffs_tensor s))%nat →
  let s' := _update_loss_coeffs self labs cur_labels batch_size
              lc RefUpper RefLower s in
  let successful :=
    _is_successful_label self (default 0%Z (cur_labels !! i))
      (default 0%nat (labs !! i)) in
  let L := rd s RefLower i in
  let U := rd s RefUpper i in
  let C := rd s lc i in
  (successful = false → ¬ U < UPPER_CHECK → rd s' lc i = C * 10) ∧
  (successful = false → U < UPPER_CHECK → rd s' lc i = (Qmax L C + U) / 2) ∧
  (successful = true → Qmin U C < UPPER_CHECK →
     rd s' lc i = (L + Qmin U C) / 2) ∧
  (successful = true → ¬ Qmin U C < UPPER_CHECK → rd s' lc i = C) ∧
  (successful = true →
     rd s' RefLower i = L ∧ (lc = RefCoeffs → rd s' RefUpper i = Qmin U C)) ∧
  (successful = false →
     rd s' RefLower i = Qmax L C ∧ (lc = RefCoeffs → rd s' RefUpper i = U)).
Proof.
  intros Hlc Hi Hl Hu Hc s' successful L U C.
  pose proof (update_loss_coeffs_spec self labs cur_labels batch_size lc s i
                Hlc Hi Hl Hu Hc) as Hspec.
  cbn zeta in Hspec. fold s' successful L U C in Hspec.
  rewrite <- py_min_Qmin, <- py_max_Qmax.
  destruct successful.
  - destruct Hspec as (HL & HU & HC).
    repeat split; try done.
    + intros _ Hlt. apply Qltb_lt in Hlt. by rewrite Hlt in HC.
    + intros _ Hge. destruct (Qltb (py_min U C) UPPER_CHECK) eqn:E; [|done].
      by apply Qltb_lt in E.
  - destruct Hspec as (HL & HU & HC).
    repeat split; try done.
    + intros _ Hge. destruct (Qltb U UPPER_CHECK) eqn:E; [|done].
      by apply Qltb_lt in E.
    + intros _ Hlt. apply Qltb_lt in Hlt. by rewrite Hlt in HC.
Qed.

Lemma update_loss_coeffs_per_sample_witness :
  rd (_update_loss_coeffs demo_attack [0%nat] [INVALID_LABEL] 1
        RefCoeffs RefUpper RefLower demo_store) RefCoeffs 0
  = 0.001 * 10.
Proof.
  refine (proj1 (update_loss_coeffs_per_sample demo_attack [0%nat]
                   [INVALID_LABEL] 1 RefCoeffs demo_store 0 _ _ _ _ _) _ _).
  - discriminate.
  - lia.
  - simpl. lia.
  - simpl. lia.
  - simpl. lia.
  - reflexivity.
  - vm_compute. discriminate.
Defined.

(** What does hold of the bounds in one coefficient update: the lower bound
    never drops, and the upper bound never grows as long as [loss_coeffs]
    is a tensor of its own. *)
Lemma coeff_bounds_monotone self labs cur n lc s i :
  lc ≠ RefLower →
  (i < n)%nat →
  (i < length (lower_tensor s))%nat →
  (i < length (upper_tensor s))%nat →
  (i < length (coeffs_tensor s))%nat →
  let s' := _update_loss_coeffs self labs cur n lc RefUpper RefLower s in
  rd s RefLower i <= rd s' RefLower i ∧
  (lc = RefCoeffs → rd s' RefUpper i <= rd s RefUpper i).
Proof.
  intros Hlc Hi Hl Hu Hc s'.
  pose proof (update_loss_coeffs_spec self labs cur n lc s i Hlc Hi Hl Hu Hc)
    as Hspec.
  cbn zeta in Hspec. fold s' in Hspec.
  destruct (_is_successful_label _ _ _); destruct Hspec as (HL & HU & _).
  - rewrite HL. split; [lra|]. intros E. rewrite (HU E). apply py_min_le_l.
  - rewrite HL. split; [apply py_max_ge_l|]. intros E. rewrite (HU E). lra.
Qed.

(** ** Element-wise view of the tensor operations *)

Lemma at2_tmap f a i j : at2 (tmap f a) i j = f <$> at2 a i j.
Proof.
  unfold at2, tmap. rewrite list_lookup_fmap.
  destruct (a !! i) as [row|]; simpl; [|done].
  by rewrite list_lookup_fmap.
Qed.

Lemma at2_tmap2 f a b i j :
  at2 (tmap2 f a b) i j =
    match at2 a i j, at2 b i j with
    | Some u, Some v => Some (f u v)
    | _, _ => None
    end.
Proof.
  unfold at2, tmap2. rewrite lookup_zip_with.
  destruct (a !! i) as [ra|]; simpl; [|done].
  destruct (b !! i) as [rb|]; simpl.
  - rewrite lookup_zip_with.
    destruct (ra !! j); simpl; [|done]. by destruct (rb !! j).
  - by destruct (ra !! j).
Qed.

Lemma at2_Forall (P : Q → Prop) (t : list (list Q)) :
  Forall (Forall P) t ↔ ∀ i j v, at2 t i j = Some v → P v.
Proof.
  unfold at2. split.
  - intros H i j v Hv. destruct (t !! i) as [row|] eqn:Er; [|done].
    simpl in Hv. eapply Forall_lookup_1; [|exact Hv].
    eapply Forall_lookup_1; [exact H|exact Er].
  - intros H. apply Forall_lookup. intros i row Er.
    apply Forall_lookup. intros j v Ev. apply (H i j). by rewrite Er.
Qed.

(** The candidate and the new slack at one entry. *)
Lemma fista_at self gs x slack newimg i j :
  let '(slack', candidate) :=
    _fast_iterative_shrinkage_thresholding self gs x slack newimg in
  at2 candidate i j =
    match at2 slack i j, at2 x i j with
    | Some sv, Some xv => Some (assign_newimg_at self sv xv)
    | _, _ => None
    end ∧
  at2 slack' i j =
    match at2 slack i j, at2 x i j, at2 newimg i j with
    | Some sv, Some xv, Some nv =>
        let c := assign_newimg_at self sv xv in
        Some (c + inject_Z (Z.of_nat gs) / inject_Z (Z.of_nat (gs + 3))
                  * (c - nv))
    | _, _, _ => None
    end.
Proof.
  unfold _fast_iterative_shrinkage_thresholding.
  rewrite !at2_tmap2, !at2_tmap, !at2_tmap2, !at2_tmap, !at2_tmap2.
  destruct (at2 slack i j) as [sv|], (at2 x i j) as [xv|],
    (at2 newimg i j) as [nv|]; simpl; done.
Qed.

Lemma assign_newimg_cases self sv xv :
  0 <= beta self →
  (beta self < sv - xv →
     assign_newimg_at self sv xv == Qmin (sv - beta self) (clip_max self)) ∧
  (Qabs (sv - xv) <= beta self → assign_newimg_at self sv xv == xv) ∧
  (sv - xv < - beta self →
     assign_newimg_at self sv xv == Qmax (sv + beta self) (clip_min self)).
Proof.
  intros Hb. unfold assign_newimg_at, clamp.
  destruct (Qltb (beta self) (sv - xv)) eqn:E1;
    [apply Qltb_lt in E1|apply Qltb_ge in E1];
  (destruct (Qle_bool (Qabs (sv - xv)) (beta self)) eqn:E2;
    [apply Qle_bool_iff, Qabs_Qle_condition in E2|]);
  (destruct (Qltb (sv - xv) (- beta self)) eqn:E3;
    [apply Qltb_lt in E3|apply Qltb_ge in E3]);
  unfold float; repeat split; intros H;
    try (apply Qabs_Qle_condition in H);
    try lra; try ring.
  all: exfalso; assert (Qle_bool (Qabs (sv - xv)) (beta self) = true)
         as E by (apply Qle_bool_iff, Qabs_Qle_condition; lra);
       congruence.
Qed.

Lemma assign_newimg_in_box self sv xv :
  0 <= beta self →
  clip_min self <= xv <= clip_max self →
  clip_min self <= assign_newimg_at self sv xv <= clip_max self.
Proof.
  intros Hb Hx.
  destruct (assign_newimg_cases self sv xv Hb) as (H1 & H2 & H3).
  destruct (Qlt_le_dec (beta self) (sv - xv)) as [Hd|Hd].
  - rewrite (H1 Hd). split.
    + apply Q.min_glb; lra.
    + apply Q.le_min_r.
  - destruct (Qlt_le_dec (sv - xv) (- beta self)) as [Hd'|Hd'].
    + rewrite (H3 Hd'). split.
      * apply Q.le_max_r.
      * apply Q.max_lub; lra.
    + rewrite H2; [done|]. apply Qabs_Qle_condition. lra.
Qed.

Lemma fista_in_box self gs x slack newimg :
  0 <= beta self → in_box self x →
  in_box self
    (snd (_fast_iterative_shrinkage_thresholding self gs x slack newimg)).
Proof.
  intros Hb Hx. unfold in_box in *.
  rewrite at2_Forall in Hx. apply at2_Forall. intros i j v Hv.
  pose proof (fista_at self gs x slack newimg i j) as Hat.
  destruct (_fast_iterative_shrinkage_thresholding _ _ _ _ _) as [s c].
  destruct Hat as [Hc _]. simpl in Hv. rewrite Hc in Hv.
  destruct (at2 slack i j) as [sv|]; [|done].
  destruct (at2 x i j) as [xv|] eqn:Ex; [|done].
  injection Hv as <-. apply assign_newimg_in_box; [done|]. by apply Hx in Ex.
Qed.

(** C8, as amended: for a threshold [beta >= 0] the proximal projection is
    the three-way case split of the specification on [diff = slack - x]
    (clip [slack - beta] from above when [diff > beta], keep [x] when
    [|diff| <= beta], clip [slack + beta] from below when [diff < -beta]),
    and the new slack is [candidate + zt * (candidate - newimg)] with
    [zt = step / (step + 3)]. *)
Theorem fista_case_split self global_step x slack newimg :
  0 <= beta self →
  fista_as_specified self global_step x slack newimg.
Proof.
  intros Hb. unfold fista_as_specified.
  pose proof (fista_at self global_step x slack newimg) as Hat.
  destruct (_fast_iterative_shrinkage_thresholding _ _ _ _ _) as [s c].
  intros i j xv sv nv Hx Hs Hn.
  destruct (Hat i j) as [Hc Hs']. rewrite Hs, Hx in Hc.
  rewrite Hs, Hx, Hn in Hs'. cbn zeta in Hs'.
  eexists _, _. split; [exact Hc|]. split; [exact Hs'|].
  destruct (assign_newimg_cases self sv xv Hb) as (H1 & H2 & H3).
  repeat split; try done.
  assert (inject_Z (Z.of_nat (global_step + 3))
          == inject_Z (Z.of_nat global_step) + 3) as ->; [|reflexivity].
  rewrite Nat2Z.inj_add, inject_Z_plus. reflexivity.
Qed.

(** The case split at a concrete batch with [beta = 0.01]. *)
Lemma fista_case_split_witness :
  0 <= beta demo_attack ∧
  fista_as_specified demo_attack 1 [[0.5; 0.2]] [[0.7; 0.2]] [[0.5; 0.2]].
Proof.
  split; [vm_compute; discriminate|].
  apply (fista_case_split demo_attack 1). vm_compute. discriminate.
Defined.

(** C8, as stated, fails for a negative [beta]: with [beta = -0.1] and
    [slack = x = 0.5] both [diff > beta] and [diff < -beta] hold, and the
    candidate is the sum 0.6 + 0.4 of the two clipped values. *)
Lemma fista_case_split_fails_negative_beta :
  ¬ fista_as_specified neg_beta_attack 1 [[0.5]] [[0.5]] [[0.5]].
Proof.
  unfold fista_as_specified.
  destruct (_fast_iterative_shrinkage_thresholding _ _ _ _ _)
    as [s c] eqn:E.
  vm_compute in E. injection E as <- <-.
  intros H.
  destruct (H 0%nat 0%nat 0.5 0.5 0.5 eq_refl eq_refl eq_refl)
    as (c & s' & Hc & _ & H1 & _).
  vm_compute in Hc. injection Hc as <-.
  assert (beta neg_beta_attack < 0.5 - 0.5) as Hlt by (vm_compute; reflexivity).
  specialize (H1 Hlt). vm_compute in H1. discriminate.
Qed.

(** ** Sums and maxima up to [==] *)

Lemma tsum_Forall2 (l k : list Q) : Forall2 Qeq l k → tsum l == tsum k.
Proof.
  induction 1 as [|a b l k Hab _ IH]; simpl; [reflexivity|].
  by rewrite Hab, IH.
Qed.

Lemma zip_with_Qmult_Forall2 (c l k : list Q) :
  Forall2 Qeq l k → Forall2 Qeq (zip_with Qmult c l) (zip_with Qmult c k).
Proof.
  intros H. revert c. induction H as [|a b l k Hab _ IH]; intros [|c0 c];
    simpl; try constructor; [by rewrite Hab|apply IH].
Qed.

Lemma Qmax_cases (a b : Q) : Qmax a b = a ∨ Qmax a b = b.
Proof.
  unfold Qmax, GenericMinMax.gmax. destruct (a ?= b); auto.
Qed.

Lemma foldl_Qmax_spec (rest : list Q) (a : Q) :
  a <= foldl Qmax a rest ∧
  (∀ v, v ∈ rest → v <= foldl Qmax a rest) ∧
  (foldl Qmax a rest = a ∨ foldl Qmax a rest ∈ rest).
Proof.
  revert a. induction rest as [|b rest IH]; intros a; simpl.
  - split; [lra|]. split; [|by left]. intros v Hv. by apply elem_of_nil in Hv.
  - destruct (IH (Qmax a b)) as (H1 & H2 & H3).
    pose proof (Q.le_max_l a b). pose proof (Q.le_max_r a b).
    split; [lra|]. split.
    + intros v Hv. apply elem_of_cons in Hv as [->|Hv]; [lra|by apply H2].
    + destruct H3 as [H3|H3].
      * rewrite H3. destruct (Qmax_cases a b) as [->| ->]; [by left|].
        right. apply elem_of_cons. by left.
      * right. apply elem_of_cons. by right.
Qed.

Lemma row_max_ub (l : list Q) (v : Q) : v ∈ l → v <= row_max l.
Proof.
  destruct l as [|a rest]; [intros H; by apply elem_of_nil in H|].
  intros Hv. simpl. destruct (foldl_Qmax_spec rest a) as (H1 & H2 & _).
  apply elem_of_cons in Hv as [->|Hv]; [done|by apply H2].
Qed.

Lemma row_max_elem (l : list Q) : l ≠ [] → row_max l ∈ l.
Proof.
  destruct l as [|a rest]; [done|]. intros _. simpl.
  destruct (foldl_Qmax_spec rest a) as (_ & _ & [-> |H]);
    apply elem_of_cons; auto.
Qed.

Lemma row_max_le (l k : list Q) :
  l ≠ [] → (∀ v, v ∈ l → ∃ w, w ∈ k ∧ v <= w) → row_max l <= row_max k.
Proof.
  intros Hne H. destruct (H _ (row_max_elem l Hne)) as (w & Hw & Hle).
  pose proof (row_max_ub k w Hw). lra.
Qed.

Lemma row_max_Forall2 (l k : list Q) : Forall2 Qeq l k → row_max l == row_max k.
Proof.
  intros H. destruct H as [|a b l k Hab H]; [reflexivity|].
  assert (Forall2 Qeq (a :: l) (b :: k)) as HF by by constructor.
  apply Qle_antisym; apply row_max_le; try done; intros v Hv.
  - apply list_elem_of_lookup in Hv as [i Hi].
    destruct (Forall2_lookup_l _ _ _ _ _ HF Hi) as (w & Hw & Hvw).
    exists w. split; [by eapply list_elem_of_lookup_2|lra].
  - apply list_elem_of_lookup in Hv as [i Hi].
    destruct (Forall2_lookup_r _ _ _ _ _ HF Hi) as (w & Hw & Hvw).
    exists w. split; [by eapply list_elem_of_lookup_2|lra].
Qed.

(** ** One-hot arithmetic against class selection *)

Lemma real_row_from (l : nat) (row : list Q) (k : nat) :
  tsum (zip_with Qmult
          (map (fun j => float (Nat.eqb j l)) (seq k (length row))) row)
  == if decide (k ≤ l)%nat then default 0 (row !! (l - k)%nat) else 0.
Proof.
  revert k. induction row as [|v row IH]; intros k; simpl.
  - case_decide; [|reflexivity]. by destruct (l - k)%nat.
  - rewrite IH. destruct (Nat.eqb_spec k l) as [->|Hne]; simpl.
    + rewrite Nat.sub_diag. simpl.
      rewrite decide_False by lia. rewrite decide_True by lia. ring.
    + destruct (decide (k ≤ l)%nat) as [Hle|Hgt].
      * rewrite decide_True by lia.
        replace (l - k)%nat with (S (l - S k)) by lia. simpl. ring.
      * rewrite decide_False by lia. ring.
Qed.

Lemma real_row (l : nat) (row : list Q) (C : nat) :
  length row = C →
  tsum (zip_with Qmult (map (fun j => float (Nat.eqb j l)) (seq 0 C)) row)
  == spec_real row l.
Proof.
  intros <-. rewrite real_row_from. rewrite decide_True by lia.
  by rewrite Nat.sub_0_r.
Qed.

Lemma other_row (l : nat) (row : list Q) (C : nat) :
  length row = C →
  row_max
    (zip_with Qminus
       (zip_with Qmult
          (map (fun v => 1 - v) (map (fun j => float (Nat.eqb j l)) (seq 0 C)))
          row)
       (map (fun v => v * TARGET_MULT)
          (map (fun j => float (Nat.eqb j l)) (seq 0 C))))
  == spec_other row l.
Proof.
  intros HC. unfold spec_other, masked_scores. apply row_max_Forall2.
  apply Forall2_lookup. intros j.
  rewrite !lookup_zip_with, !list_lookup_fmap, list_lookup_imap.
  destruct (row !! j) as [v|] eqn:Ev.
  - assert (j < C)%nat as Hj by (rewrite <- HC; by eapply lookup_lt_Some).
    rewrite lookup_seq_lt by done. simpl. constructor.
    destruct (Nat.eqb j l); unfold float; ring.
  - simpl. destruct (seq 0 C !! j); simpl; constructor.
Qed.

Lemma clamp_min0 (v : Q) : clamp v (Some 0) None = Qmax v 0.
Proof. reflexivity. Qed.

(** The margin vector of lines 97-103 (and 116-122), row by row. *)
Lemma margins_as_specified self (output : scores) (y : list nat) :
  Forall (fun row => length row = num_classes self) output →
  let y_onehot := to_one_hot y (num_classes self) in
  let real := map tsum (tmap2 Qmult y_onehot output) in
  let other :=
    map row_max
      (tmap2 Qminus
         (tmap2 Qmult (tmap (fun v => 1 - v) y_onehot) output)
         (tmap (fun v => v * TARGET_MULT) y_onehot)) in
  Forall2 Qeq
    (if targeted self then
       map (fun v => clamp v (Some 0) None)
         (map (fun v => v + confidence self) (zip_with Qminus other real))
     else
       map (fun v => clamp v (Some 0) None)
         (map (fun v => v + confidence self) (zip_with Qminus real other)))
    (zip_with (spec_margin self) output y).
Proof.
  intros Hout y_onehot real other. apply Forall2_lookup. intros i.
  assert (Hreal : real !! i =
            output !! i ≫= λ row, y !! i ≫= λ l,
              Some (tsum (zip_with Qmult
                (map (fun j => float (Nat.eqb j l)) (seq 0 (num_classes self)))
                row))).
  { unfold real, tmap2, y_onehot, to_one_hot.
    rewrite list_lookup_fmap, lookup_zip_with, list_lookup_fmap.
    destruct (y !! i), (output !! i); done. }
  assert (Hother : other !! i =
            output !! i ≫= λ row, y !! i ≫= λ l,
              Some (row_max
                (zip_with Qminus
                   (zip_with Qmult
                      (map (fun v => 1 - v)
                         (map (fun j => float (Nat.eqb j l))
                            (seq 0 (num_classes self))))
                      row)
                   (map (fun v => v * TARGET_MULT)
                      (map (fun j => float (Nat.eqb j l))
                         (seq 0 (num_classes self))))))).
  { unfold other, tmap2, tmap, y_onehot, to_one_hot.
    rewrite list_lookup_fmap, !lookup_zip_with, !list_lookup_fmap.
    destruct (y !! i), (output !! i); done. }
  rewrite (lookup_zip_with (spec_margin self)).
  assert (Hrow : ∀ row l, output !! i = Some row →
            tsum (zip_with Qmult
              (map (fun j => float (Nat.eqb j l)) (seq 0 (num_classes self)))
              row) == spec_real row l ∧
            row_max
              (zip_with Qminus
                 (zip_with Qmult
                    (map (fun v => 1 - v)
                       (map (fun j => float (Nat.eqb j l))
                          (seq 0 (num_classes self))))
                    row)
                 (map (fun v => v * TARGET_MULT)
                    (map (fun j => float (Nat.eqb j l))
                       (seq 0 (num_classes self))))) == spec_other row l).
  { intros row l Er.
    pose proof (Forall_lookup_1 _ _ _ _ Hout Er) as Hlen. simpl in Hlen.
    split; [by apply real_row|by apply other_row]. }
  destruct (targeted self) eqn:Et;
    rewrite !list_lookup_fmap, lookup_zip_with, Hreal, Hother;
    (destruct (output !! i) as [row|]; simpl; [|constructor]);
    (destruct (y !! i) as [l|]; simpl; constructor);
    destruct (Hrow row l eq_refl) as [Hr Ho];
    unfold spec_margin; rewrite Et; cbn zeta; rewrite Hr, Ho; reflexivity.
Qed.

Lemma elem_of_delete_lookup (row : list Q) (label : nat) (v : Q) :
  v ∈ delete label row ↔ ∃ j, j ≠ label ∧ row !! j = Some v.
Proof.
  rewrite list_elem_of_lookup. split.
  - intros [i Hi]. destruct (decide (i < label)%nat) as [Hlt|Hge].
    + rewrite list_lookup_delete_lt in Hi by done. exists i. split; [lia|done].
    + rewrite list_lookup_delete_ge in Hi by lia. exists (S i).
      split; [lia|done].
  - intros (j & Hne & Hj). destruct (decide (j < label)%nat) as [Hlt|Hge].
    + exists j. by rewrite list_lookup_delete_lt.
    + exists (j - 1)%nat. rewrite list_lookup_delete_ge by lia.
      by replace (S (j - 1)) with j by lia.
Qed.

(** When some other class scores at least [- TARGET_MULT], masking selects
    the best score among the remaining classes. *)
Lemma spec_other_best_remaining (row : list Q) (label : nat) :
  (∃ j v, j ≠ label ∧ row !! j = Some v ∧ - TARGET_MULT <= v) →
  spec_other row label == row_max (delete label row).
Proof.
  intros (j0 & v0 & Hne0 & Hj0 & Hv0). unfold spec_other, masked_scores.
  assert (v0 ∈ delete label row) as Hin0
    by (apply elem_of_delete_lookup; eauto).
  apply Qle_antisym; apply row_max_le.
  - intros Hnil. apply (f_equal length) in Hnil.
    rewrite length_imap in Hnil. apply lookup_lt_Some in Hj0.
    simpl in Hnil. lia.
  - intros v Hv. apply list_elem_of_lookup in Hv as [j Hj].
    rewrite list_lookup_imap in Hj.
    destruct (row !! j) as [u|] eqn:Eu; [|done]. simpl in Hj.
    injection Hj as <-. destruct (Nat.eqb_spec j label) as [->|Hne].
    + exists v0. split; [done|lra].
    + exists u. split; [|lra]. apply elem_of_delete_lookup. eauto.
  - intros Hnil. rewrite Hnil in Hin0. by apply elem_of_nil in Hin0.
  - intros v Hv. apply elem_of_delete_lookup in Hv as (j & Hne & Hj).
    exists v. split; [|lra]. apply list_elem_of_lookup. exists j.
    rewrite list_lookup_imap, Hj. simpl.
    destruct (Nat.eqb_spec j label); [done|reflexivity].
Qed.

(** C9: on scores of shape N x num_classes, the full attack loss is
    [sum(coeff * margin) + sum(l2distsq) + beta * sum(l1dist)], the margin
    being [max(other - real + confidence, 0)] when targeted and
    [max(real - other + confidence, 0)] otherwise, with [real] the score of
    the selected class and [other] the maximum of the scores with the
    selected class masked out; the optimisation loss is the same without
    the [beta * sum(l1dist)] term; and masking yields the best score among
    the remaining classes whenever one of them is at least
    [- TARGET_MULT]. *)
Theorem losses_as_specified self (output : list (list Q)) (y : list nat)
    (l1dist l2distsq const : list Q) :
  Forall (fun row => length row = num_classes self) output →
  let y_onehot := to_one_hot y (num_classes self) in
  _loss_fn self output y_onehot l1dist l2distsq const
    == spec_full_loss self output y l1dist l2distsq const ∧
  _loss_opt_fn self output y_onehot l2distsq const
    == spec_opt_loss self output y l2distsq const ∧
  _loss_fn self output y_onehot l1dist l2distsq const
    == _loss_opt_fn self output y_onehot l2distsq const
       + beta self * tsum l1dist ∧
  (∀ row label,
     (∃ j v, j ≠ label ∧ row !! j = Some v ∧ - TARGET_MULT <= v) →
     spec_other row label == row_max (delete label row)).
Proof.
  intros Hout y_onehot.
  pose proof (margins_as_specified self output y Hout) as Hm.
  cbn zeta in Hm. fold y_onehot in Hm.
  apply (zip_with_Qmult_Forall2 const), tsum_Forall2 in Hm.
  assert (H1 : _loss_fn self output y_onehot l1dist l2distsq const
               == spec_full_loss self output y l1dist l2distsq const).
  { unfold _loss_fn, spec_full_loss. cbn zeta. by rewrite Hm. }
  assert (H2 : _loss_opt_fn self output y_onehot l2distsq const
               == spec_opt_loss self output y l2distsq const).
  { unfold _loss_opt_fn, spec_opt_loss. cbn zeta. by rewrite Hm. }
  split; [exact H1|]. split; [exact H2|]. split.
  - eapply Qeq_trans; [exact H1|]. unfold spec_full_loss.
    apply Qplus_comp; [symmetry; exact H2|reflexivity].
  - intros row label. apply spec_other_best_remaining.
Qed.

Lemma losses_as_specified_witness :
  _loss_fn demo_attack [[0.75; 0.25]] (to_one_hot [0%nat] 2) [0.5] [0.25] [2]
  == spec_full_loss demo_attack [[0.75; 0.25]] [0%nat] [0.5] [0.25] [2].
Proof.
  refine (proj1 (losses_as_specified demo_attack [[0.75; 0.25]] [0%nat]
                   [0.5] [0.25] [2] _)).
  repeat constructor.
Defined.

(** ** One inner iteration *)

Arguments _fast_iterative_shrinkage_thresholding : simpl never.
Arguments _update_if_smaller_dist_succeed : simpl never.
Arguments _update_loss_coeffs : simpl never.
Arguments run : simpl never.
Arguments inner_iteration : simpl never.

Section Run.

Variable predict : list (list Q) → list (list Q).
Variable backward :
  list (list Q) → list (list Q) → list (list Q) → list Q → list (list Q).
Variable polynomial_decay : Q → nat → nat → Q → Q → Q.
Variable self : ElasticNetL1Attack.
Variable x : list (list Q).
Variable y : list nat.
Variable y_onehot : list (list Q).
Variable batch_size : nat.

Lemma run_inr newimg lc loss dist output :
  run predict self x newimg y_onehot lc = inr (loss, dist, output) →
  output = predict newimg ∧
  ∀ i d, dist !! i = Some d →
    ∃ img xi, newimg !! i = Some img ∧ x !! i = Some xi ∧
              sample_criterion self img xi = Some d.
Proof.
  unfold run, sample_criterion.
  destruct (String.eqb (decision_rule self) "EN") eqn:E1;
    [|destruct (String.eqb (decision_rule self) "L1") eqn:E2];
    intros H; [| |done]; injection H as _ <- <-; (split; [done|]);
    intros i d; unfold calc_l2distsq, calc_l1dist;
    rewrite ?lookup_zip_with, ?list_lookup_fmap, ?lookup_zip_with;
    destruct (newimg !! i) as [img|]; simpl; try done;
    destruct (x !! i) as [xi|]; simpl; try done;
    intros [= <-]; eauto.
Qed.

Lemma run_valid newimg lc :
  decision_rule self = "EN" ∨ decision_rule self = "L1" →
  ∃ loss dist, run predict self x newimg y_onehot lc
               = inr (loss, dist, predict newimg).
Proof.
  unfold run. intros [-> | ->]; simpl; eauto.
Qed.

Lemma run_invalid newimg lc :
  decision_rule self ≠ "EN" → decision_rule self ≠ "L1" →
  run predict self x newimg y_onehot lc = inl UnboundLocalError.
Proof.
  unfold run. intros H1 H2.
  destruct (String.eqb_spec (decision_rule self) "EN"); [done|].
  destruct (String.eqb_spec (decision_rule self) "L1"); [done|]. done.
Qed.

(** What one inner iteration does to the bookkeeping: nothing when it
    raises or breaks, one call of [_update_if_smaller_dist_succeed] on the
    new candidate otherwise. *)
Lemma inner_iteration_track lc ii o t :
  ∃ o',
    (∃ slack, o_newimg o' =
       snd (_fast_iterative_shrinkage_thresholding self (o_global_step o') x
              slack (o_newimg o))) ∧
    o_global_step o' = S (o_global_step o) ∧
    ((∃ e, run predict self x (o_newimg o') y_onehot lc = inl e ∧
           inner_iteration predict backward polynomial_decay self x y y_onehot
             lc batch_size ii (o, t) = Raise e (o', t))
     ∨ (∃ loss dist output,
          run predict self x (o_newimg o') y_onehot lc
            = inr (loss, dist, output) ∧
          (inner_iteration predict backward polynomial_decay self x y y_onehot
             lc batch_size ii (o, t) = Break (o', t)
           ∨ inner_iteration predict backward polynomial_decay self x y
               y_onehot lc batch_size ii (o, t)
             = Next (o', _update_if_smaller_dist_succeed self (o_newimg o') y
                           output dist batch_size t)))).
Proof.
  unfold inner_iteration, train.
  destruct (_fast_iterative_shrinkage_thresholding _ _ _ _ _)
    as [slack' newimg'] eqn:EF.
  apply (f_equal snd) in EF. cbn [snd] in EF.
  destruct (run predict self x newimg' y_onehot lc)
    as [e|[[loss dist] output]] eqn:ER.
  - refine (ex_intro _ {| o_global_step := S (o_global_step o); o_lr := _;
                          o_slack := _; o_newimg := newimg';
                          o_prevloss := _ |} _).
    cbn [o_newimg o_global_step].
    split; [eexists; symmetry; exact EF|]. split; [done|].
    left. eexists. split; [exact ER|reflexivity].
  - destruct (_ && Qltb _ _).
    + refine (ex_intro _ {| o_global_step := S (o_global_step o); o_lr := _;
                            o_slack := _; o_newimg := newimg';
                            o_prevloss := _ |} _).
      cbn [o_newimg o_global_step].
      split; [eexists; symmetry; exact EF|]. split; [done|].
      right. eexists _, _, _. split; [exact ER|left; reflexivity].
    + refine (ex_intro _ {| o_global_step := S (o_global_step o); o_lr := _;
                            o_slack := _; o_newimg := newimg';
                            o_prevloss := _ |} _).
      cbn [o_newimg o_global_step].
      split; [eexists; symmetry; exact EF|]. split; [done|].
      right. eexists _, _, _. split; [exact ER|right; reflexivity].
Qed.

End Run.

(** ** Invariants of the loops *)

Section Invariant.

Variable predict : list (list Q) → list (list Q).
Variable backward :
  list (list Q) → list (list Q) → list (list Q) → list Q → list (list Q).
Variable polynomial_decay : Q → nat → nat → Q → Q → Q.
Variable self : ElasticNetL1Attack.
Variable x : list (list Q).
Variable y : list nat.
Variable y_onehot : list (list Q).
Variable batch_size : nat.

(** A property of the bookkeeping that every call on the arguments of an
    inner iteration preserves. *)
Variable P : tracking → Prop.
Hypothesis P_step : ∀ lc t gs slack prev loss dist output,
  run predict self x
    (snd (_fast_iterative_shrinkage_thresholding self gs x slack prev))
    y_onehot lc = inr (loss, dist, output) →
  P t →
  P (_update_if_smaller_dist_succeed self
       (snd (_fast_iterative_shrinkage_thresholding self gs x slack prev))
       y output dist batch_size t).

Lemma inner_iteration_inv lc ii o t :
  P t →
  P (snd (flow_state
            (inner_iteration predict backward polynomial_decay self x y
               y_onehot lc batch_size ii (o, t)))).
Proof.
  intros Ht.
  destruct (inner_iteration_track predict backward polynomial_decay self x y
              y_onehot batch_size lc ii o t)
    as (o' & [slack Hc] & _ & [(e & _ & ->)|(loss & dist & output & Hr & [-> | ->])]);
    simpl; try done.
  rewrite Hc in Hr |- *. by eapply P_step.
Qed.

Lemma inner_loop_inv lc iters o t :
  P t →
  P (snd (state_of
            (inner_loop predict backward polynomial_decay self x y y_onehot
               lc batch_size iters (o, t)))).
Proof.
  revert o t. induction iters as [|ii iters IH]; intros o t Ht; [done|].
  simpl. pose proof (inner_iteration_inv lc ii o t Ht) as Hi.
  destruct (inner_iteration _ _ _ _ _ _ _ _ _ _ _) as [[o' t']|[o' t']|e [o' t']];
    simpl in *; [by apply IH|done|done].
Qed.

(** ... and that does not depend on the per-step accumulators. *)
Hypothesis P_reset : ∀ cd cl t, P t → P (reset_cur cd cl t).

Lemma outer_iteration_inv outer_step l :
  P (track l) →
  P (track (state_of
              (outer_iteration predict backward polynomial_decay self x y
                 y_onehot batch_size outer_step l))).
Proof.
  intros Hl. unfold outer_iteration.
  match goal with
  | |- context [inner_loop _ _ _ _ _ _ _ ?lc _ ?iters (?o, ?t)] =>
      pose proof (inner_loop_inv lc iters o t) as Hi;
      destruct (inner_loop predict backward polynomial_decay self x y
                  y_onehot lc batch_size iters (o, t)) as [[o' t']|e [o' t']]
  end; simpl in *; apply Hi; by apply (P_reset _ _ (track l)).
Qed.

Lemma outer_loop_inv steps l :
  P (track l) →
  P (track (state_of
              (outer_loop predict backward polynomial_decay self x y y_onehot
                 batch_size steps l))).
Proof.
  revert l. induction steps as [|s steps IH]; intros l Hl; [done|].
  simpl. pose proof (outer_iteration_inv s l Hl) as Hs.
  destruct (outer_iteration _ _ _ _ _ _ _ _ _ _) as [l'|e l']; simpl in *;
    [by apply IH|done].
Qed.

End Invariant.

(** ** The invariant of the all-time-best accumulators *)

Section Tracking.

Variable predict : list (list Q) → list (list Q).
Variable backward :
  list (list Q) → list (list Q) → list (list Q) → list Q → list (list Q).
Variable polynomial_decay : Q → nat → nat → Q → Q → Q.
Variable self : ElasticNetL1Attack.
Variable x : list (list Q).
Variable y : list nat.
Variable y_onehot : list (list Q).
Variable batch_size : nat.

Lemma tracking_inv_reset cd cl t :
  tracking_inv predict self x y y_onehot t →
  tracking_inv predict self x y y_onehot (reset_cur cd cl t).
Proof. done. Qed.

Lemma tracking_inv_step lc t gs slack prev loss dist output :
  run predict self x
    (snd (_fast_iterative_shrinkage_thresholding self gs x slack prev))
    y_onehot lc = inr (loss, dist, output) →
  tracking_inv predict self x y y_onehot t →
  tracking_inv predict self x y y_onehot
    (_update_if_smaller_dist_succeed self
       (snd (_fast_iterative_shrinkage_thresholding self gs x slack prev))
       y output dist batch_size t).
Proof.
  set (cand := snd (_fast_iterative_shrinkage_thresholding _ _ _ _ _)).
  intros Hrun (Hld & Hll & Hla & Hcalls & Hat).
  unfold tracking_inv, _update_if_smaller_dist_succeed.
  cbn [final_dist final_labels final_advs calls].
  rewrite !length_masked_assign.
  set (mask := zip_with andb (zip_with Qltb dist (final_dist t))
                 (_is_successful_logits self output y)).
  split; [done|]. split; [done|]. split; [done|]. split.
  { constructor; [|done]. split; [by eexists _, _, _|by eexists _, _]. }
  intros i Hi.
  destruct (decide (mask !! i = Some true)) as [Hm|Hm].
  - right. pose proof Hm as Hm'.
    apply mask_lookup_true in Hm' as (d & b & Hd & Hb & Hlt & Hs).
    destruct (proj2 (run_inr _ _ _ _ _ _ _ _ _ Hrun) i d Hd)
      as (img & xi & Himg & _ & _).
    unfold _is_successful_logits in Hs. pose proof Hs as Hs'.
    rewrite lookup_zip_with in Hs'.
    destruct (output !! i) as [row|] eqn:Erow; [|done].
    exists cand, output, dist, img, row, d.
    split; [apply elem_of_cons; by left|].
    split; [done|]. split; [done|]. split; [done|]. split; [done|].
    split; [|split].
    + apply masked_assign_lookup_true; [done|done|].
      apply lookup_lt_is_Some. lia.
    + apply masked_assign_lookup_true; [done|done|].
      apply lookup_lt_is_Some. lia.
    + apply masked_assign_lookup_true; [done| |].
      * by rewrite list_lookup_fmap, Erow.
      * apply lookup_lt_is_Some. lia.
  - rewrite !masked_assign_lookup_other by done.
    destruct (Hat i Hi) as [H0|(adv & out & ds & img & row & d & Hin & H)];
      [by left|right].
    exists adv, out, ds, img, row, d. split; [|done].
    apply elem_of_cons. by right.
Qed.

Lemma tracking_inv_init y0 :
  tracking_inv predict self x y y_onehot (track (perturb_init self x y0)).
Proof.
  unfold tracking_inv, perturb_init. cbn.
  rewrite !length_replicate. repeat split; try done.
  intros i Hi. left. by rewrite !lookup_replicate_2.
Qed.

(** The invariant holds in the state in which the outer loop ends, whether
    it returns or raises. *)
Lemma outer_loop_tracking_inv steps y0 :
  tracking_inv predict self x y y_onehot
    (track (state_of
              (outer_loop predict backward polynomial_decay self x y y_onehot
                 batch_size steps (perturb_init self x y0)))).
Proof.
  apply (outer_loop_inv predict backward polynomial_decay self x y y_onehot
           batch_size (tracking_inv predict self x y y_onehot)).
  - intros. by eapply tracking_inv_step.
  - intros. by apply tracking_inv_reset.
  - apply tracking_inv_init.
Qed.

End Tracking.

(** ** With a valid decision rule nothing raises *)

Section Totality.

Variable predict : list (list Q) → list (list Q).
Variable backward :
  list (list Q) → list (list Q) → list (list Q) → list Q → list (list Q).
Variable polynomial_decay : Q → nat → nat → Q → Q → Q.
Variable _get_predicted_label : list (list Q) → list nat.
Variable self : ElasticNetL1Attack.
Hypothesis rule_valid : decision_rule self = "EN" ∨ decision_rule self = "L1".

Lemma inner_loop_ok x y y_onehot lc batch_size iters st :
  ∃ st', inner_loop predict backward polynomial_decay self x y y_onehot lc
           batch_size iters st = Ok st'.
Proof.
  revert st. induction iters as [|ii iters IH]; intros [o t]; [by eexists|].
  simpl.
  destruct (inner_iteration_track predict backward polynomial_decay self x y
              y_onehot batch_size lc ii o t)
    as (o' & _ & _ & [(e & He & _)|(loss & dist & output & _ & [-> | ->])]).
  - destruct (run_valid predict self x y_onehot (o_newimg o') lc rule_valid)
      as (loss & dist & Hr). congruence.
  - by eexists.
  - apply IH.
Qed.

Lemma outer_loop_ok x y y_onehot batch_size steps l :
  ∃ l', outer_loop predict backward polynomial_decay self x y y_onehot
          batch_size steps l = Ok l'.
Proof.
  revert l. induction steps as [|s steps IH]; intros l; [by eexists|].
  simpl. unfold outer_iteration.
  match goal with
  | |- context [inner_loop _ _ _ _ _ _ _ ?lc _ ?iters ?st] =>
      destruct (inner_loop_ok x y y_onehot lc batch_size iters st)
        as [[o' t'] ->]
  end.
  apply IH.
Qed.

Lemma perturb_ok x y :
  ∃ l, perturb_locals_at_return predict backward polynomial_decay
         _get_predicted_label self x y = Ok l ∧
       perturb predict backward polynomial_decay _get_predicted_label self x y
       = inr (final_advs (track l)).
Proof.
  unfold perturb, perturb_locals_at_return.
  match goal with
  | |- context [outer_loop _ _ _ _ ?x ?y ?yo ?bs ?steps ?l] =>
      destruct (outer_loop_ok x y yo bs steps l) as [l' ->]
  end.
  by exists l'.
Qed.

End Totality.

(** The invariant at the end of [perturb]. *)
Lemma perturb_tracking_inv predict backward polynomial_decay
    _get_predicted_label self x yopt :
  let y := labels_used _get_predicted_label x yopt in
  tracking_inv predict self x y (to_one_hot y (num_classes self))
    (track (state_of
              (perturb_locals_at_return predict backward polynomial_decay
                 _get_predicted_label self x yopt))).
Proof.
  intros y. unfold perturb_locals_at_return. fold (labels_used _get_predicted_label x yopt).
  fold y. apply outer_loop_tracking_inv.
Qed.

(** ** Monotonicity of [final_dist] *)

Lemma final_dist_le_refl i t : final_dist_le i t t.
Proof. intros d Hd. exists d. split; [done|lra]. Qed.

Lemma final_dist_le_trans i t1 t2 t3 :
  final_dist_le i t1 t2 → final_dist_le i t2 t3 → final_dist_le i t1 t3.
Proof.
  intros H12 H23 d Hd. destruct (H12 d Hd) as (d2 & Hd2 & Hle2).
  destruct (H23 d2 Hd2) as (d3 & Hd3 & Hle3). exists d3. split; [done|lra].
Qed.

(** One call of the bookkeeping at sample [i]: either nothing changes, or
    the distortion strictly drops to the candidate's and the image is
    written with it. *)
Lemma update_final_at self (adv : list (list Q)) y output dist batch_size t
    i d :
  final_dist t !! i = Some d →
  ∃ d',
    final_dist (_update_if_smaller_dist_succeed self adv y output dist
                  batch_size t) !! i = Some d' ∧
    d' <= d ∧
    ((d' = d ∧
      final_advs (_update_if_smaller_dist_succeed self adv y output dist
                    batch_size t) !! i = final_advs t !! i ∧
      final_labels (_update_if_smaller_dist_succeed self adv y output dist
                      batch_size t) !! i = final_labels t !! i)
     ∨ (d' < d ∧ dist !! i = Some d' ∧
        _is_successful_logits self output y !! i = Some true ∧
        ∀ img, adv !! i = Some img → is_Some (final_advs t !! i) →
          final_advs (_update_if_smaller_dist_succeed self adv y output dist
                        batch_size t) !! i = Some img)).
Proof.
  intros Hd. unfold _update_if_smaller_dist_succeed.
  cbn [final_dist final_labels final_advs].
  set (mask := zip_with andb (zip_with Qltb dist (final_dist t))
                 (_is_successful_logits self output y)).
  destruct (decide (mask !! i = Some true)) as [Hm|Hm].
  - pose proof Hm as Hm'.
    apply mask_lookup_true in Hm' as (d' & b & Hd' & Hb & Hlt & Hs).
    assert (b = d) as -> by congruence.
    exists d'. split; [|split; [lra|right]].
    + apply masked_assign_lookup_true; [done|done|by eexists].
    + split; [done|]. split; [done|]. split; [done|]. intros img Himg Hsome.
      by apply masked_assign_lookup_true.
  - exists d. rewrite !masked_assign_lookup_other by done.
    split; [done|]. split; [lra|]. by left.
Qed.

Lemma update_final_dist_le self (adv : list (list Q)) y output dist batch_size
    t i :
  final_dist_le i t
    (_update_if_smaller_dist_succeed self adv y output dist batch_size t).
Proof.
  intros d Hd.
  destruct (update_final_at self adv y output dist batch_size t i d Hd)
    as (d' & Hd' & Hle & _).
  eauto.
Qed.

(** ** The per-step label of a sample without success *)

Lemma cur_label_kept_step self (adv : list (list Q)) y output dist batch_size
    i c0 cl0 t :
  cur_label_kept self y i c0 cl0 t →
  cur_label_kept self y i c0 cl0
    (_update_if_smaller_dist_succeed self adv y output dist batch_size t).
Proof.
  intros (new & Hcalls & Hkeep).
  exists ((adv, output, dist) :: new). split.
  - unfold _update_if_smaller_dist_succeed. cbn [calls]. by rewrite Hcalls.
  - intros Hno. unfold _update_if_smaller_dist_succeed. cbn [cur_labels].
    rewrite masked_assign_lookup_other.
    + apply Hkeep. intros a o d Hin. apply (Hno a o d).
      apply elem_of_cons. by right.
    + intros Hm. apply mask_lookup_true in Hm as (? & ? & _ & _ & _ & Hs).
      apply (Hno adv output dist); [|done]. apply elem_of_cons. by left.
Qed.

Lemma inner_loop_cur_label predict backward polynomial_decay self x y y_onehot
    lc batch_size iters o t i :
  cur_label_kept self y i (calls t) (cur_labels t !! i)
    (snd (state_of
            (inner_loop predict backward polynomial_decay self x y y_onehot
               lc batch_size iters (o, t)))).
Proof.
  apply (inner_loop_inv predict backward polynomial_decay self x y y_onehot
           batch_size (cur_label_kept self y i (calls t) (cur_labels t !! i))).
  - intros. by apply cur_label_kept_step.
  - exists []. by split.
Qed.

(** ** Properties of a whole call of [perturb] *)



(** C2: for a classifier that is a deterministic function of each sample,
    whenever [final_labels[i]] at the end of [perturb] is a class (not the
    sentinel), running the classifier on [final_advs] and applying the
    confidence-adjusted success predicate with the same labels answers
    success at sample [i]. *)
Theorem valid_final_label_is_success predict predict1 backward polynomial_decay
    _get_predicted_label self (x : list (list Q)) (yopt : option (list nat))
    (l : perturb_locals) (i : nat) (lab : Z) :
  (∀ b, predict b = map predict1 b) →
  perturb_locals_at_return predict backward polynomial_decay
    _get_predicted_label self x yopt = Ok l →
  final_labels (track l) !! i = Some lab →
  lab ≠ INVALID_LABEL →
  _is_successful_logits self (predict (final_advs (track l)))
    (labels_used _get_predicted_label x yopt) !! i = Some true.
Proof.
  intros Hpred Hl Hlab Hvalid.
  pose proof (perturb_tracking_inv predict backward polynomial_decay
                _get_predicted_label self x yopt) as Hinv.
  cbn zeta in Hinv. rewrite Hl in Hinv. simpl in Hinv.
  destruct Hinv as (_ & Hlen & _ & Hcalls & Hat).
  assert (i < length x)%nat as Hi
    by (rewrite <- Hlen; by eapply lookup_lt_Some).
  destruct (Hat i Hi) as [(_ & Hlab0 & _)|
    (adv & out & ds & img & row & d & Hin & Hs & Hadv & _ & _ & Hfin & _)];
    [congruence|].
  rewrite Forall_forall in Hcalls.
  destruct (Hcalls _ Hin) as [_ (lc & loss & Hr)].
  apply run_inr in Hr as [Hout _]. simpl in Hout. subst out.
  unfold _is_successful_logits in *.
  rewrite Hpred in Hs |- *.
  rewrite lookup_zip_with, list_lookup_fmap in Hs |- *.
  by rewrite Hfin, <- Hadv.
Qed.

Lemma valid_final_label_is_success_witness :
  ∃ l,
    perturb_locals_at_return demo_predict demo_backward demo_decay
      demo_get_predicted_label tiny_attack [[0.45]] (Some [0%nat]) = Ok l ∧
    final_labels (track l) !! 0%nat = Some 1%Z ∧
    _is_successful_logits tiny_attack (demo_predict (final_advs (track l)))
      [0%nat] !! 0%nat = Some true.
Proof.
  destruct (perturb_ok demo_predict demo_backward demo_decay
              demo_get_predicted_label tiny_attack (or_introl eq_refl)
              [[0.45]] (Some [0%nat])) as (l & Hl & _).
  exists l. split; [exact Hl|].
  assert (final_labels (track l) !! 0%nat = Some 1%Z) as Hlab.
  { vm_compute in Hl. by injection Hl as <-. }
  split; [exact Hlab|].
  apply (valid_final_label_is_success demo_predict demo_predict1 demo_backward
           demo_decay demo_get_predicted_label tiny_attack [[0.45]]
           (Some [0%nat]) l 0 1%Z).
  - reflexivity.
  - exact Hl.
  - exact Hlab.
  - discriminate.
Defined.

(** C1: in every call of [perturb] and for every sample [i],
    [final_dist[i]] never grows: not in a single bookkeeping call, not over
    an inner loop, not over the outer loop (from any state, whether the
    loop returns or raises).  A bookkeeping call either leaves
    [final_dist[i]], [final_advs[i]] and [final_labels[i]] as they are, or
    strictly lowers [final_dist[i]] to the candidate's distortion and
    writes the candidate image into [final_advs[i]].  At the end,
    [final_dist[i]] is at most [DIST_UPPER], and either sample [i] is
    untouched or [final_advs[i]] is a recorded candidate whose criterion
    against [x[i]] is [final_dist[i]]. *)
Theorem final_dist_monotone predict backward polynomial_decay
    _get_predicted_label self (x : list (list Q)) (yopt : option (list nat))
    (i : nat) :
  let y := labels_used _get_predicted_label x yopt in
  let y_onehot := to_one_hot y (num_classes self) in
  (∀ (adv : list (list Q)) output dist batch_size t d,
     final_dist t !! i = Some d →
     ∃ d',
       final_dist (_update_if_smaller_dist_succeed self adv y output dist
                     batch_size t) !! i = Some d' ∧
       d' <= d ∧
       ((d' = d ∧
         final_advs (_update_if_smaller_dist_succeed self adv y output dist
                       batch_size t) !! i = final_advs t !! i ∧
         final_labels (_update_if_smaller_dist_succeed self adv y output dist
                         batch_size t) !! i = final_labels t !! i)
        ∨ (d' < d ∧ dist !! i = Some d' ∧
           _is_successful_logits self output y !! i = Some true ∧
           ∀ img, adv !! i = Some img → is_Some (final_advs t !! i) →
             final_advs (_update_if_smaller_dist_succeed self adv y output
                           dist batch_size t) !! i = Some img))) ∧
  (∀ lc batch_size iters o t,
     final_dist_le i t
       (snd (state_of
               (inner_loop predict backward polynomial_decay self x y
                  y_onehot lc batch_size iters (o, t))))) ∧
  (∀ batch_size steps l,
     final_dist_le i (track l)
       (track (state_of
                 (outer_loop predict backward polynomial_decay self x y
                    y_onehot batch_size steps l)))) ∧
  ((i < length x)%nat →
   let t := track (state_of
                     (perturb_locals_at_return predict backward
                        polynomial_decay _get_predicted_label self x yopt)) in
   ∃ d, final_dist t !! i = Some d ∧ d <= DIST_UPPER ∧
        ((d = DIST_UPPER ∧ final_labels t !! i = Some INVALID_LABEL ∧
          final_advs t !! i = x !! i)
         ∨ ∃ adv out dist img xi,
             (adv, out, dist) ∈ calls t ∧
             adv !! i = Some img ∧ dist !! i = Some d ∧
             final_advs t !! i = Some img ∧ x !! i = Some xi ∧
             sample_criterion self img xi = Some d)).
Proof.
  intros y y_onehot.
  assert (Hinner : ∀ lc batch_size iters o t,
     final_dist_le i t
       (snd (state_of
               (inner_loop predict backward polynomial_decay self x y
                  y_onehot lc batch_size iters (o, t))))).
  { intros lc batch_size iters o t.
    apply (inner_loop_inv predict backward polynomial_decay self x y y_onehot
             batch_size (final_dist_le i t)).
    - intros lc' t' gs slack prev loss dist output _ Ht'.
      eapply final_dist_le_trans; [exact Ht'|apply update_final_dist_le].
    - apply final_dist_le_refl. }
  assert (Houter : ∀ batch_size steps l,
     final_dist_le i (track l)
       (track (state_of
                 (outer_loop predict backward polynomial_decay self x y
                    y_onehot batch_size steps l)))).
  { intros batch_size steps l.
    apply (outer_loop_inv predict backward polynomial_decay self x y y_onehot
             batch_size (final_dist_le i (track l))).
    - intros lc' t' gs slack prev loss dist output _ Ht'.
      eapply final_dist_le_trans; [exact Ht'|apply update_final_dist_le].
    - intros cd cl t' Ht'. exact Ht'.
    - apply final_dist_le_refl. }
  split; [intros; by apply update_final_at|].
  split; [exact Hinner|]. split; [exact Houter|].
  intros Hi t.
  pose proof (perturb_tracking_inv predict backward polynomial_decay
                _get_predicted_label self x yopt) as Hinv.
  cbn zeta in Hinv. fold y t in Hinv.
  destruct Hinv as (_ & _ & _ & Hcalls & Hat).
  assert (Hle : ∃ d, final_dist t !! i = Some d ∧ d <= DIST_UPPER).
  { apply (Houter (length x) (seq 0 (binary_search_steps self))
             (perturb_init self x y)).
    simpl. by rewrite lookup_replicate_2. }
  destruct Hle as (d & Hd & Hle). exists d. split; [done|]. split; [done|].
  destruct (Hat i Hi) as [(Hd0 & Hlab & Hadv)|
    (adv & out & ds & img & row & d' & Hin & _ & Hadv & _ & Hds & Hfin & Hfd & _)].
  - left. split; [congruence|done].
  - right. assert (d' = d) as -> by congruence.
    rewrite Forall_forall in Hcalls.
    destruct (Hcalls _ Hin) as [_ (lc & loss & Hr)].
    apply run_inr in Hr as [_ Hcrit]. simpl in Hcrit.
    destruct (Hcrit i d Hds) as (img' & xi & Himg' & Hxi & Hc).
    assert (img' = img) as -> by congruence.
    exists adv, out, ds, img, xi. done.
Qed.

(** C5, as amended: for a threshold [beta >= 0] and an input batch inside
    the box, every candidate of the proximal projection is inside the box,
    whatever the slack, the previous candidate and the step counter; so is
    every candidate handed to the bookkeeping during [perturb] and every
    image in [final_advs] when [perturb] ends. *)
Theorem box_constraint predict backward polynomial_decay _get_predicted_label
    self (x : list (list Q)) (yopt : option (list nat)) :
  0 <= beta self →
  in_box self x →
  (∀ gs slack newimg,
     in_box self
       (snd (_fast_iterative_shrinkage_thresholding self gs x slack newimg)))
  ∧
  let t := track (state_of
                    (perturb_locals_at_return predict backward
                       polynomial_decay _get_predicted_label self x yopt)) in
  Forall (fun c => in_box self c.1.1) (calls t) ∧
  in_box self (final_advs t).
Proof.
  intros Hb Hx. split; [intros; by apply fista_in_box|].
  intros t.
  pose proof (perturb_tracking_inv predict backward polynomial_decay
                _get_predicted_label self x yopt) as Hinv.
  cbn zeta in Hinv. fold t in Hinv.
  destruct Hinv as (_ & _ & Hlen & Hcalls & Hat).
  assert (Hc : Forall (fun c => in_box self c.1.1) (calls t)).
  { eapply Forall_impl; [exact Hcalls|].
    intros c [(gs & slack & prev & ->) _]. by apply fista_in_box. }
  split; [exact Hc|].
  apply Forall_lookup. intros i img Himg.
  assert (i < length x)%nat as Hi
    by (rewrite <- Hlen; by eapply lookup_lt_Some).
  destruct (Hat i Hi) as [(_ & _ & Hadv)|
    (adv & out & ds & img' & row & d & Hin & _ & Hadv & _ & _ & Hfin & _)].
  - rewrite Hadv in Himg. by eapply (Forall_lookup_1 _ x).
  - assert (img' = img) as -> by congruence.
    rewrite Forall_forall in Hc. specialize (Hc _ Hin). simpl in Hc.
    by eapply (Forall_lookup_1 _ adv).
Qed.

Lemma box_constraint_witness :
  in_box demo_attack
    (snd (_fast_iterative_shrinkage_thresholding demo_attack 1
            [[0.25; 1]] [[0.5; 2]] [[0.25; 1]])).
Proof.
  refine (proj1 (box_constraint demo_predict demo_backward demo_decay
                   demo_get_predicted_label demo_attack [[0.25; 1]]
                   (Some [0%nat]) _ _) 1%nat [[0.5; 2]] [[0.25; 1]]).
  - vm_compute. discriminate.
  - repeat constructor; vm_compute; discriminate.
Defined.

(** C5, as stated, fails for a negative [beta]: with [beta = -0.1],
    [clip_min = 0], [clip_max = 1] and [slack = x = 0.9] the candidate is
    1.0 + 0.8 = 1.8, and [perturb] returns it. *)
Lemma box_constraint_fails_negative_beta :
  in_box neg_beta_attack [[0.9]] ∧
  ¬ in_box neg_beta_attack
      (snd (_fast_iterative_shrinkage_thresholding neg_beta_attack 1
              [[0.9]] [[0.9]] [[0.9]])) ∧
  ∃ adv,
    perturb demo_predict stuck_backward demo_decay demo_get_predicted_label
      neg_beta_attack [[0.9]] (Some [0%nat]) = inr adv ∧
    Forall2 (Forall2 Qeq) adv [[1.8]] ∧
    ¬ in_box neg_beta_attack adv.
Proof.
  split; [repeat constructor; vm_compute; discriminate|]. split.
  - intros H. apply Forall_cons in H as [H _]. apply Forall_cons in H as [H _].
    vm_compute in H. destruct H as [_ H]. by apply H.
  - eexists. split; [vm_compute; reflexivity|]. split.
    + repeat constructor.
    + intros H. apply Forall_cons in H as [H _].
      apply Forall_cons in H as [H _].
      vm_compute in H. destruct H as [_ H]. by apply H.
Qed.

(** C10: in non-logits mode [_is_successful] answers false on the sentinel
    [INVALID_LABEL], whatever the label, the targeted flag and the
    confidence; a sample whose [cur_labels] entry is the sentinel takes the
    failure branch of [_update_loss_coeffs]; and in an outer step whose
    inner loop handed no successful candidate for sample [i] to the
    bookkeeping, the coefficient update of sample [i] is the failure
    branch: the lower bound becomes [max(L, C)] and [loss_coeffs[i]] the
    midpoint or ten times its value. *)
Theorem invalid_label_is_failure :
  (∀ self label, _is_successful_label self INVALID_LABEL label = false) ∧
  (∀ self labs cur_labels batch_size lc s i,
     lc ≠ RefLower → (i < batch_size)%nat →
     (i < length (lower_tensor s))%nat →
     (i < length (upper_tensor s))%nat →
     (i < length (coeffs_tensor s))%nat →
     cur_labels !! i = Some INVALID_LABEL →
     let s' := _update_loss_coeffs self labs cur_labels batch_size
                 lc RefUpper RefLower s in
     let L := rd s RefLower i in
     let U := rd s RefUpper i in
     let C := rd s lc i in
     rd s' RefLower i = Qmax L C ∧
     rd s' lc i = (if Qltb U UPPER_CHECK then (Qmax L C + U) / 2 else C * 10))
  ∧
  (∀ predict backward polynomial_decay self x y y_onehot batch_size
     outer_step l l' i,
     outer_iteration predict backward polynomial_decay self x y y_onehot
       batch_size outer_step l = Ok l' →
     loss_coeffs l ≠ RefLower → (i < batch_size)%nat →
     (i < length (lower_tensor (store l)))%nat →
     (i < length (upper_tensor (store l)))%nat →
     (i < length (coeffs_tensor (store l)))%nat →
     ∃ new,
       calls (track l') = new ++ calls (track l) ∧
       (no_success_at self y i new →
        let lc := loss_coeffs l' in
        let L := rd (store l) RefLower i in
        let U := rd (store l) RefUpper i in
        let C := rd (store l) lc i in
        rd (store l') RefLower i = Qmax L C ∧
        rd (store l') lc i
        = (if Qltb U UPPER_CHECK then (Qmax L C + U) / 2 else C * 10))).
Proof.
  assert (H1 : ∀ self label,
            _is_successful_label self INVALID_LABEL label = false) by done.
  assert (H2 : ∀ self labs cur_labels batch_size lc s i,
     lc ≠ RefLower → (i < batch_size)%nat →
     (i < length (lower_tensor s))%nat →
     (i < length (upper_tensor s))%nat →
     (i < length (coeffs_tensor s))%nat →
     cur_labels !! i = Some INVALID_LABEL →
     let s' := _update_loss_coeffs self labs cur_labels batch_size
                 lc RefUpper RefLower s in
     let L := rd s RefLower i in
     let U := rd s RefUpper i in
     let C := rd s lc i in
     rd s' RefLower i = Qmax L C ∧
     rd s' lc i = (if Qltb U UPPER_CHECK then (Qmax L C + U) / 2 else C * 10)).
  { intros self labs cur_labels batch_size lc s i Hlc Hi Hl Hu Hc Hcur.
    pose proof (update_loss_coeffs_spec self labs cur_labels batch_size lc s i
                  Hlc Hi Hl Hu Hc) as Hspec.
    cbn zeta in Hspec |- *. rewrite Hcur in Hspec.
    change (default 0%Z (Some INVALID_LABEL)) with INVALID_LABEL in Hspec.
    rewrite H1 in Hspec. rewrite <- py_max_Qmax.
    destruct Hspec as (HL & _ & HC). done. }
  split; [exact H1|]. split; [exact H2|].
  intros predict backward polynomial_decay self x y y_onehot batch_size
    outer_step l l' i Hout Hlc Hi Hl Hu Hc.
  unfold outer_iteration in Hout.
  match type of Hout with
  | context [inner_loop _ _ _ _ _ _ _ ?lc _ ?iters (?o, ?t)] =>
      pose proof (inner_loop_cur_label predict backward polynomial_decay self
                    x y y_onehot lc batch_size iters o t i) as Hcur;
      destruct (inner_loop predict backward polynomial_decay self x y
                  y_onehot lc batch_size iters (o, t)) as [[o' t']|e [o' t']]
  end; [|done].
  injection Hout as <-. simpl in Hcur. cbn [track store loss_coeffs].
  destruct Hcur as (new & Hcalls & Hkeep).
  exists new. split; [done|]. intros Hno.
  apply H2; try done.
  - by destruct (repeat self && _).
  - rewrite (Hkeep Hno). by apply lookup_replicate_2.
Qed.

(** With a decision rule other than EN and L1, the first inner iteration
    raises, after the optimizer step and the proximal projection of that
    iteration have run. *)
Lemma invalid_rule_raises_in_first_iteration predict backward polynomial_decay
    _get_predicted_label self x yopt :
  decision_rule self ≠ "EN" → decision_rule self ≠ "L1" →
  (0 < binary_search_steps self)%nat → (0 < max_iterations self)%nat →
  ∃ l, perturb_locals_at_return predict backward polynomial_decay
         _get_predicted_label self x yopt = Raised UnboundLocalError l ∧
       self_global_step l = 1%nat.
Proof.
  intros H1 H2 Hb Hm. unfold perturb_locals_at_return.
  destruct (binary_search_steps self) as [|b]; [lia|].
  destruct (max_iterations self) as [|m] eqn:Em; [lia|].
  cbn [seq outer_loop]. unfold outer_iteration. rewrite Em.
  cbn [seq inner_loop].
  match goal with
  | |- context [inner_iteration _ _ _ _ ?x ?y ?yo ?lc ?bs ?ii (?o, ?t)] =>
      destruct (inner_iteration_track predict backward polynomial_decay self
                  x y yo bs lc ii o t)
        as (o' & _ & Hgs & [(e & Hr & ->)|(loss & dist & output & Hr & _)])
  end.
  - destruct e. eexists. split; [reflexivity|]. exact Hgs.
  - by rewrite run_invalid in Hr.
Qed.

(** C4 (the code does not do this): an attack constructed with
    [decision_rule = "L2"] is accepted by [__init__]; [perturb] then enters
    the search loop, takes one optimizer step ([self.global_step] is 1) and
    only then raises [UnboundLocalError]; with [max_iterations = 0] it
    returns the input without any error. *)
Theorem invalid_decision_rule_not_rejected :
  decision_rule bad_rule_attack = "L2" ∧
  (∃ l, perturb_locals_at_return demo_predict demo_backward demo_decay
          demo_get_predicted_label bad_rule_attack [[0.25]] (Some [0%nat])
        = Raised UnboundLocalError l ∧
        self_global_step l = 1%nat) ∧
  perturb demo_predict demo_backward demo_decay demo_get_predicted_label
    bad_rule_attack [[0.25]] (Some [0%nat]) = inl UnboundLocalError ∧
  perturb demo_predict demo_backward demo_decay demo_get_predicted_label
    bad_rule_idle_attack [[0.25]] (Some [0%nat]) = inr [[0.25]].
Proof.
  split; [reflexivity|].
  assert (H : ∃ l, perturb_locals_at_return demo_predict demo_backward
                     demo_decay demo_get_predicted_label bad_rule_attack
                     [[0.25]] (Some [0%nat])
                   = Raised UnboundLocalError l ∧
                   self_global_step l = 1%nat).
  { apply invalid_rule_raises_in_first_iteration;
      [discriminate|discriminate|simpl; lia|simpl; lia]. }
  split; [exact H|]. split.
  - destruct H as (l & Hl & _). unfold perturb. by rewrite Hl.
  - reflexivity.
Qed.

(** C6 (the code does not do this): with [binary_search_steps = 10] the
    last outer step binds [loss_coeffs] to the tensor of
    [coeff_upper_bound] (line 280), so the in-place [loss_coeffs[ii] *= 10]
    of line 235 multiplies the upper bound.  For a sample that never
    succeeds, [coeff_upper_bound[0]] is 1e10 after nine outer steps and
    1e11 when [perturb] ends. *)
Theorem upper_bound_grows_in_last_step :
  repeat ten_step_attack = true ∧
  ∃ l9 l10,
    outer_loop stuck_predict stuck_backward demo_decay ten_step_attack
      [[0.25]] [0%nat] (to_one_hot [0%nat] 2) 1 (seq 0 9)
      (perturb_init ten_step_attack [[0.25]] [0%nat]) = Ok l9 ∧
    outer_iteration stuck_predict stuck_backward demo_decay ten_step_attack
      [[0.25]] [0%nat] (to_one_hot [0%nat] 2) 1 9 l9 = Ok l10 ∧
    perturb_locals_at_return stuck_predict stuck_backward demo_decay
      demo_get_predicted_label ten_step_attack [[0.25]] (Some [0%nat])
    = Ok l10 ∧
    loss_coeffs l9 = RefCoeffs ∧ loss_coeffs l10 = RefUpper ∧
    rd (store l9) RefUpper 0 == 10000000000 ∧
    rd (store l10) RefUpper 0 == 100000000000 ∧
    rd (store l9) RefUpper 0 < rd (store l10) RefUpper 0.
Proof.
  split; [reflexivity|].
  eexists _, _. split; [vm_compute; reflexivity|].
  split; [vm_compute; reflexivity|].
  split; [vm_compute; reflexivity|].
  split; [reflexivity|]. split; [reflexivity|].
  split; [vm_compute; reflexivity|].
  split; [vm_compute; reflexivity|].
  vm_compute. reflexivity.
Qed.

(** * Further properties of the code *)

(** ** A run without iterations *)

Lemma outer_loop_without_iterations predict backward polynomial_decay self
    x y y_onehot batch_size steps l :
  max_iterations self = 0%nat →
  ∃ l', outer_loop predict backward polynomial_decay self x y y_onehot
          batch_size steps l = Ok l' ∧
        final_advs (track l') = final_advs (track l) ∧
        final_labels (track l') = final_labels (track l) ∧
        final_dist (track l') = final_dist (track l) ∧
        calls (track l') = calls (track l).
Proof.
  intros Hm. revert l. induction steps as [|s steps IH]; intros l.
  - by exists l.
  - cbn [outer_loop]. unfold outer_iteration. rewrite Hm. cbn [seq inner_loop].
    match goal with
    | |- context [outer_loop _ _ _ _ _ _ _ _ _ ?l1] =>
        destruct (IH l1) as (l' & -> & Ha & Hl & Hd & Hc)
    end.
    exists l'. by repeat split.
Qed.

(** X1: with [max_iterations = 0] or [binary_search_steps = 0], [perturb]
    raises nothing (whatever the decision rule) and returns its input
    unchanged, every [final_labels] entry being the sentinel. *)
Theorem perturb_without_iterations predict backward polynomial_decay
    _get_predicted_label self (x : list (list Q)) (yopt : option (list nat)) :
  max_iterations self = 0%nat ∨ binary_search_steps self = 0%nat →
  perturb predict backward polynomial_decay _get_predicted_label self x yopt
    = inr x ∧
  ∃ l, perturb_locals_at_return predict backward polynomial_decay
         _get_predicted_label self x yopt = Ok l ∧
       final_labels (track l) = replicate (length x) INVALID_LABEL ∧
       calls (track l) = [].
Proof.
  intros H.
  assert (∃ l, perturb_locals_at_return predict backward polynomial_decay
                 _get_predicted_label self x yopt = Ok l ∧
               final_advs (track l) = x ∧
               final_labels (track l) = replicate (length x) INVALID_LABEL ∧
               calls (track l) = []) as (l & Hl & Ha & Hlab & Hc).
  { unfold perturb_locals_at_return. destruct H as [Hm|Hb].
    - match goal with
      | |- context [outer_loop _ _ _ _ ?x ?y ?yo ?bs ?steps ?l1] =>
          destruct (outer_loop_without_iterations predict backward
                      polynomial_decay self x y yo bs steps l1 Hm)
            as (l' & -> & Ha & Hl & _ & Hc)
      end.
      by exists l'.
    - rewrite Hb. cbn [seq outer_loop]. by eexists. }
  split; [unfold perturb; by rewrite Hl, Ha|by exists l].
Qed.

Lemma perturb_without_iterations_witness :
  perturb demo_predict demo_backward demo_decay demo_get_predicted_label
    bad_rule_idle_attack [[0.25]; [0.5]] None = inr [[0.25]; [0.5]].
Proof.
  refine (proj1 (perturb_without_iterations demo_predict demo_backward
                   demo_decay demo_get_predicted_label bad_rule_idle_attack
                   [[0.25]; [0.5]] None _)).
  by left.
Defined.

(** ** One bookkeeping call, sample by sample *)

Lemma update_final_cases self (adv : list (list Q)) y output dist batch_size
    t i :
  (∃ d b row,
     dist !! i = Some d ∧ final_dist t !! i = Some b ∧ d < b ∧
     _is_successful_logits self output y !! i = Some true ∧
     output !! i = Some row ∧
     final_dist (_update_if_smaller_dist_succeed self adv y output dist
                   batch_size t) !! i = Some d ∧
     (is_Some (final_labels t !! i) →
      final_labels (_update_if_smaller_dist_succeed self adv y output dist
                      batch_size t) !! i = Some (Z.of_nat (argmax row))))
  ∨ (¬ (∃ d b, dist !! i = Some d ∧ final_dist t !! i = Some b ∧ d < b ∧
               _is_successful_logits self output y !! i = Some true) ∧
     final_dist (_update_if_smaller_dist_succeed self adv y output dist
                   batch_size t) !! i = final_dist t !! i ∧
     final_labels (_update_if_smaller_dist_succeed self adv y output dist
                     batch_size t) !! i = final_labels t !! i ∧
     final_advs (_update_if_smaller_dist_succeed self adv y output dist
                   batch_size t) !! i = final_advs t !! i).
Proof.
  unfold _update_if_smaller_dist_succeed.
  cbn [final_dist final_labels final_advs].
  set (mask := zip_with andb (zip_with Qltb dist (final_dist t))
                 (_is_successful_logits self output y)).
  destruct (decide (mask !! i = Some true)) as [Hm|Hm].
  - left. pose proof Hm as Hm'.
    apply mask_lookup_true in Hm' as (d & b & Hd & Hb & Hlt & Hs).
    pose proof Hs as Hs'. unfold _is_successful_logits in Hs'.
    rewrite lookup_zip_with in Hs'.
    destruct (output !! i) as [row|] eqn:Erow; [|done].
    exists d, b, row. repeat split; try done.
    + apply masked_assign_lookup_true; [done|done|by eexists].
    + intros Hsome. apply masked_assign_lookup_true; [done| |done].
      by rewrite list_lookup_fmap, Erow.
  - right. rewrite !masked_assign_lookup_other by done.
    split; [|done]. intros (d & b & H). apply Hm.
    apply mask_lookup_true. by exists d, b.
Qed.

Lemma update_cur_cases self (adv : list (list Q)) y output dist batch_size
    t i :
  (∃ d b row,
     dist !! i = Some d ∧ cur_dist t !! i = Some b ∧ d < b ∧
     _is_successful_logits self output y !! i = Some true ∧
     output !! i = Some row ∧
     cur_dist (_update_if_smaller_dist_succeed self adv y output dist
                 batch_size t) !! i = Some d ∧
     (is_Some (cur_labels t !! i) →
      cur_labels (_update_if_smaller_dist_succeed self adv y output dist
                    batch_size t) !! i = Some (Z.of_nat (argmax row))))
  ∨ (¬ (∃ d b, dist !! i = Some d ∧ cur_dist t !! i = Some b ∧ d < b ∧
               _is_successful_logits self output y !! i = Some true) ∧
     cur_dist (_update_if_smaller_dist_succeed self adv y output dist
                 batch_size t) !! i = cur_dist t !! i ∧
     cur_labels (_update_if_smaller_dist_succeed self adv y output dist
                   batch_size t) !! i = cur_labels t !! i).
Proof.
  unfold _update_if_smaller_dist_succeed. cbn [cur_dist cur_labels].
  set (mask := zip_with andb (zip_with Qltb dist (cur_dist t))
                 (_is_successful_logits self output y)).
  destruct (decide (mask !! i = Some true)) as [Hm|Hm].
  - left. pose proof Hm as Hm'.
    apply mask_lookup_true in Hm' as (d & b & Hd & Hb & Hlt & Hs).
    pose proof Hs as Hs'. unfold _is_successful_logits in Hs'.
    rewrite lookup_zip_with in Hs'.
    destruct (output !! i) as [row|] eqn:Erow; [|done].
    exists d, b, row. repeat split; try done.
    + apply masked_assign_lookup_true; [done|done|by eexists].
    + intros Hsome. apply masked_assign_lookup_true; [done| |done].
      by rewrite list_lookup_fmap, Erow.
  - right. rewrite !masked_assign_lookup_other by done.
    split; [|done]. intros (d & b & H). apply Hm.
    apply mask_lookup_true. by exists d, b.
Qed.

Lemma update_lengths self (adv : list (list Q)) y output dist batch_size t :
  length (cur_dist (_update_if_smaller_dist_succeed self adv y output dist
                      batch_size t)) = length (cur_dist t) ∧
  length (cur_labels (_update_if_smaller_dist_succeed self adv y output dist
                        batch_size t)) = length (cur_labels t) ∧
  length (final_dist (_update_if_smaller_dist_succeed self adv y output dist
                        batch_size t)) = length (final_dist t) ∧
  length (final_labels (_update_if_smaller_dist_succeed self adv y output dist
                          batch_size t)) = length (final_labels t) ∧
  length (final_advs (_update_if_smaller_dist_succeed self adv y output dist
                        batch_size t)) = length (final_advs t).
Proof.
  unfold _update_if_smaller_dist_succeed. cbn.
  by rewrite !length_masked_assign.
Qed.

(** ** Invariants that depend on the values the outer step resets to *)

Section ResetInvariant.

Variable predict : list (list Q) → list (list Q).
Variable backward :
  list (list Q) → list (list Q) → list (list Q) → list Q → list (list Q).
Variable polynomial_decay : Q → nat → nat → Q → Q → Q.
Variable self : ElasticNetL1Attack.
Variable x : list (list Q).
Variable y : list nat.
Variable y_onehot : list (list Q).
Variable batch_size : nat.
Variable P : tracking → Prop.
Hypothesis P_step : ∀ lc t gs slack prev loss dist output,
  run predict self x
    (snd (_fast_iterative_shrinkage_thresholding self gs x slack prev))
    y_onehot lc = inr (loss, dist, output) →
  P t →
  P (_update_if_smaller_dist_succeed self
       (snd (_fast_iterative_shrinkage_thresholding self gs x slack prev))
       y output dist batch_size t).
Hypothesis P_start : ∀ t,
  P t →
  P (reset_cur (replicate batch_size DIST_UPPER)
       (replicate batch_size INVALID_LABEL) t).

Lemma outer_loop_inv_start steps l :
  P (track l) →
  P (track (state_of
              (outer_loop predict backward polynomial_decay self x y y_onehot
                 batch_size steps l))).
Proof.
  revert l. induction steps as [|s steps IH]; intros l Hl; [done|].
  cbn [outer_loop].
  assert (P (track (state_of
                      (outer_iteration predict backward polynomial_decay self
                         x y y_onehot batch_size s l)))) as Hs.
  { unfold outer_iteration.
    match goal with
    | |- context [inner_loop _ _ _ _ _ _ _ ?lc _ ?iters (?o, ?t)] =>
        pose proof (inner_loop_inv predict backward polynomial_decay self x y
                      y_onehot batch_size P P_step lc iters o t) as Hi;
        destruct (inner_loop predict backward polynomial_decay self x y
                    y_onehot lc batch_size iters (o, t))
          as [[o' t']|e [o' t']]
    end; simpl in *; apply Hi; by apply (P_start (track l)). }
  destruct (outer_iteration _ _ _ _ _ _ _ _ _ _) as [l'|e l']; simpl in *;
    [by apply IH|done].
Qed.

End ResetInvariant.

(** ** The accumulators move together *)

Lemma final_coherent_step self x (adv : list (list Q)) y output dist
    batch_size t :
  final_coherent x t →
  final_coherent x
    (_update_if_smaller_dist_succeed self adv y output dist batch_size t).
Proof.
  intros (Hld & Hll & Hla & Hat).
  destruct (update_lengths self adv y output dist batch_size t)
    as (_ & _ & Hd' & Hl' & Ha').
  split; [congruence|]. split; [congruence|]. split; [congruence|].
  intros i Hi.
  destruct (update_final_cases self adv y output dist batch_size t i)
    as [(d & b & row & Hd & Hb & Hlt & _ & _ & Hfd & Hfl)|
        (_ & -> & -> & ->)]; [|by apply Hat].
  right. exists (Z.of_nat (argmax row)), d.
  split; [apply Hfl, lookup_lt_is_Some; lia|]. split; [lia|].
  split; [done|].
  destruct (Hat i Hi) as [(_ & Hb' & _)|(lab & d0 & _ & _ & Hb' & Hlt')].
  - assert (b = DIST_UPPER) as -> by congruence. done.
  - assert (b = d0) as -> by congruence. lra.
Qed.

Lemma perturb_final_coherent predict backward polynomial_decay
    _get_predicted_label self (x : list (list Q)) (yopt : option (list nat)) :
  final_coherent x
    (track (state_of
              (perturb_locals_at_return predict backward polynomial_decay
                 _get_predicted_label self x yopt))).
Proof.
  unfold perturb_locals_at_return.
  apply (outer_loop_inv predict backward polynomial_decay self x
           (labels_used _get_predicted_label x yopt)
           (to_one_hot (labels_used _get_predicted_label x yopt)
              (num_classes self))
           (length x) (final_coherent x)).
  - intros. by apply final_coherent_step.
  - done.
  - unfold final_coherent, perturb_init. cbn.
    rewrite !length_replicate. repeat split; try done.
    intros i Hi. left. by rewrite !lookup_replicate_2.
Qed.

(** X2: when [perturb] ends (returning or raising), the all-time-best
    tensors still have the batch size of [x], and at every sample the
    three of them agree: either [final_labels[i]] is the sentinel,
    [final_dist[i]] is [DIST_UPPER] and [final_advs[i]] is the input
    [x[i]], or [final_labels[i]] is a class index ([>= 0]) and
    [final_dist[i]] is strictly below [DIST_UPPER].  In particular the
    returned batch has as many samples as the input. *)
Theorem final_accumulators_coherent predict backward polynomial_decay
    _get_predicted_label self (x : list (list Q)) (yopt : option (list nat)) :
  final_coherent x
    (track (state_of
              (perturb_locals_at_return predict backward polynomial_decay
                 _get_predicted_label self x yopt))) ∧
  ∀ adv,
    perturb predict backward polynomial_decay _get_predicted_label self x yopt
      = inr adv →
    length adv = length x.
Proof.
  pose proof (perturb_final_coherent predict backward polynomial_decay
                _get_predicted_label self x yopt) as H.
  split; [exact H|]. intros adv. unfold perturb.
  destruct (perturb_locals_at_return _ _ _ _ _ _ _) as [l|e l]; [|done].
  intros [= <-]. by destruct H as (_ & _ & Hla & _).
Qed.

(** ** The kept example has the least distortion *)




(** ** The all-time best against the best of the step *)

Lemma final_le_cur_step self (adv : list (list Q)) y output dist batch_size t :
  final_le_cur t →
  final_le_cur
    (_update_if_smaller_dist_succeed self adv y output dist batch_size t).
Proof.
  intros (Hlen & Hat).
  destruct (update_lengths self adv y output dist batch_size t)
    as (Hcd & Hcl & Hfd & Hfl & _).
  split; [congruence|]. intros i.
  destruct (Hat i) as (H1 & H2 & H3 & H4 & H5).
  assert (Hdef : ∀ d', final_dist (_update_if_smaller_dist_succeed self adv y
                         output dist batch_size t) !! i = Some d' →
                       ∃ d, final_dist t !! i = Some d).
  { intros d' Hd'. apply lookup_lt_Some in Hd'. rewrite Hfd in Hd'.
    by apply lookup_lt_is_Some in Hd'. }
  destruct (update_final_cases self adv y output dist batch_size t i)
    as [(d & b & row & Hd & Hb & Hlt & Hs & Hrow & Hfd' & Hfl')|
        (Hno & Efd & Efl & _)];
  destruct (update_cur_cases self adv y output dist batch_size t i)
    as [(dc & bc & rowc & Hdc & Hbc & Hltc & Hsc & Hrowc & Hcd' & Hcl')|
        (Hnoc & Ecd & Ecl)].
  - (* both improve *)
    assert (dc = d) as -> by congruence.
    pose proof (H1 b Hb). pose proof (H2 bc Hbc).
    rewrite Hfd', Hcd'. repeat split.
    + intros ? [= <-]. lra.
    + intros ? [= <-]. lra.
    + intros ? ? [= <-] [= <-]. lra.
    + intros lab _ _. exists d. split; [done|lra].
    + intros ? _ _. rewrite Hfl'.
      * eexists. split; [done|]. unfold INVALID_LABEL. lia.
      * apply lookup_lt_is_Some. rewrite Hlen. by eapply lookup_lt_Some.
  - (* only the all-time best improves *)
    pose proof (H1 b Hb). rewrite Hfd', Ecd, Ecl. repeat split.
    + intros ? [= <-]. lra.
    + done.
    + intros c ? Hc [= <-]. pose proof (H3 c b Hc Hb). lra.
    + done.
    + intros ? _ _. rewrite Hfl'.
      * eexists. split; [done|]. unfold INVALID_LABEL. lia.
      * apply lookup_lt_is_Some. rewrite Hlen. by eapply lookup_lt_Some.
  - (* only the best of the step improves *)
    pose proof (H2 bc Hbc). rewrite Efd, Efl, Hcd'. repeat split.
    + done.
    + intros ? [= <-]. lra.
    + intros ? b [= <-] Hb.
      destruct (Qlt_le_dec dc b) as [Hlt|Hle]; [|done].
      destruct Hno. by exists dc, b.
    + intros lab _ _. exists dc. split; [done|lra].
    + done.
  - by rewrite Efd, Efl, Ecd, Ecl.
Qed.

Lemma final_le_cur_start batch_size t :
  final_le_cur t →
  final_le_cur
    (reset_cur (replicate batch_size DIST_UPPER)
       (replicate batch_size INVALID_LABEL) t).
Proof.
  intros (Hlen & Hat). split; [done|]. intros i.
  destruct (Hat i) as (H1 & _ & _ & _ & H5). cbn. repeat split; try done.
  - intros c Hc. apply lookup_replicate in Hc as [-> _]. lra.
  - intros c d Hc Hd. apply lookup_replicate in Hc as [-> _]. by apply H1.
  - intros lab Hlab Hne. by apply lookup_replicate in Hlab as [-> _].
Qed.

(** X4: when [perturb] ends (returning or raising), at every sample the
    all-time best distortion is at most the best of the last outer step,
    both are at most [DIST_UPPER], and a class label goes with a distortion
    strictly below [DIST_UPPER]: a sample whose [cur_labels] entry is a
    class has [cur_dist < DIST_UPPER], hence [final_dist < DIST_UPPER] and
    a class in [final_labels]. *)
Theorem final_best_at_most_step_best predict backward polynomial_decay
    _get_predicted_label self (x : list (list Q)) (yopt : option (list nat)) :
  let t := track (state_of
                    (perturb_locals_at_return predict backward
                       polynomial_decay _get_predicted_label self x yopt)) in
  final_le_cur t ∧
  ∀ i lab, cur_labels t !! i = Some lab → lab ≠ INVALID_LABEL →
    (i < length x)%nat →
    ∃ lab' d, final_labels t !! i = Some lab' ∧ lab' ≠ INVALID_LABEL ∧
              final_dist t !! i = Some d ∧ d < DIST_UPPER.
Proof.
  intros t.
  assert (H : final_le_cur t).
  { unfold t, perturb_locals_at_return.
    apply (outer_loop_inv_start predict backward polynomial_decay self x
             (labels_used _get_predicted_label x yopt)
             (to_one_hot (labels_used _get_predicted_label x yopt)
                (num_classes self))
             (length x) final_le_cur).
    - intros. by apply final_le_cur_step.
    - intros. by apply final_le_cur_start.
    - split; [cbn; by rewrite !length_replicate|]. intros i. cbn.
      repeat split; try done.
      + intros d Hd. apply lookup_replicate in Hd as [-> _]. lra.
      + intros d Hd Hlt. apply lookup_replicate in Hd as [-> _]. lra. }
  split; [exact H|]. intros i lab Hlab Hne Hi.
  destruct H as (Hlen & Hat). destruct (Hat i) as (_ & _ & H3 & H4 & H5).
  destruct (H4 lab Hlab Hne) as (c & Hc & Hclt).
  destruct (perturb_final_coherent predict backward polynomial_decay
              _get_predicted_label self x yopt) as (Hfd & _).
  fold t in Hfd.
  assert (is_Some (final_dist t !! i)) as [d Hd]
    by (apply lookup_lt_is_Some; lia).
  pose proof (H3 c d Hc Hd).
  destruct (H5 d Hd) as (lab' & Hlab' & Hne'); [lra|].
  exists lab', d. repeat split; try done. lra.
Qed.

(** ** How many iterations run *)

Section Counting.

Variable predict : list (list Q) → list (list Q).
Variable backward :
  list (list Q) → list (list Q) → list (list Q) → list Q → list (list Q).
Variable polynomial_decay : Q → nat → nat → Q → Q → Q.
Variable self : ElasticNetL1Attack.
Variable x : list (list Q).
Variable y : list nat.
Variable y_onehot : list (list Q).
Variable batch_size : nat.

Lemma inner_iteration_count lc ii o t :
  match inner_iteration predict backward polynomial_decay self x y y_onehot
          lc batch_size ii (o, t) with
  | Next (o', t') =>
      o_global_step o' = S (o_global_step o) ∧
      length (calls t') = S (length (calls t))
  | Break (o', t') =>
      abort_early self = true ∧
      o_global_step o' = S (o_global_step o) ∧ calls t' = calls t
  | Raise e (o', t') =>
      decision_rule self ≠ "EN" ∧ decision_rule self ≠ "L1" ∧
      o_global_step o' = S (o_global_step o) ∧ calls t' = calls t
  end.
Proof.
  unfold inner_iteration, train.
  destruct (_fast_iterative_shrinkage_thresholding _ _ _ _ _)
    as [slack' newimg'].
  destruct (run predict self x newimg' y_onehot lc)
    as [e|[[loss dist] output]] eqn:ER.
  - split; [|split]; [| |done].
    + intros E. destruct (run_valid predict self x y_onehot newimg' lc
                            (or_introl E)) as (? & ? & ?). congruence.
    + intros E. destruct (run_valid predict self x y_onehot newimg' lc
                            (or_intror E)) as (? & ? & ?). congruence.
  - destruct (abort_early self); cbn [andb].
    + destruct (_ && Qltb _ _); [done|].
      split; [done|]. unfold _update_if_smaller_dist_succeed. done.
    + split; [done|]. unfold _update_if_smaller_dist_succeed. done.
Qed.

Lemma inner_loop_count lc iters o t :
  let st := state_of
              (inner_loop predict backward polynomial_decay self x y y_onehot
                 lc batch_size iters (o, t)) in
  (o_global_step st.1 ≤ o_global_step o + length iters)%nat ∧
  (length (calls st.2) ≤ length (calls t) + length iters)%nat ∧
  (length (calls t) ≤ length (calls st.2))%nat ∧
  (abort_early self = false →
   decision_rule self = "EN" ∨ decision_rule self = "L1" →
   o_global_step st.1 = (o_global_step o + length iters)%nat ∧
   length (calls st.2) = (length (calls t) + length iters)%nat).
Proof.
  revert o t. induction iters as [|ii iters IH]; intros o t st.
  - subst st. cbn. repeat split; lia.
  - subst st. cbn [inner_loop length].
    pose proof (inner_iteration_count lc ii o t) as Hit.
    destruct (inner_iteration _ _ _ _ _ _ _ _ _ _ _)
      as [[o' t']|[o' t']|e [o' t']].
    + destruct Hit as [Hg Hc]. specialize (IH o' t'). cbn zeta in IH.
      destruct IH as (H1 & H2 & H3 & H4).
      split; [lia|]. split; [lia|]. split; [lia|].
      intros Ha Hr. destruct (H4 Ha Hr). lia.
    + destruct Hit as (Ha & Hg & Hc). cbn. rewrite Hc.
      split; [lia|]. split; [lia|]. split; [lia|]. congruence.
    + destruct Hit as (Hr1 & Hr2 & Hg & Hc). cbn. rewrite Hc.
      split; [lia|]. split; [lia|]. split; [lia|].
      intros _ [?|?]; done.
Qed.

Lemma outer_loop_count steps l :
  let l' := state_of
              (outer_loop predict backward polynomial_decay self x y y_onehot
                 batch_size steps l) in
  (self_global_step l' ≤ Nat.max (self_global_step l) (max_iterations self))%nat
  ∧
  (length (calls (track l'))
   ≤ length (calls (track l)) + length steps * max_iterations self)%nat ∧
  (abort_early self = false →
   decision_rule self = "EN" ∨ decision_rule self = "L1" →
   length (calls (track l'))
   = (length (calls (track l)) + length steps * max_iterations self)%nat ∧
   (steps ≠ [] → self_global_step l' = max_iterations self)).
Proof.
  revert l. induction steps as [|s steps IH]; intros l l'.
  - subst l'. cbn. repeat split; try lia. done.
  - subst l'. cbn [outer_loop length]. unfold outer_iteration.
    match goal with
    | |- context [inner_loop _ _ _ _ _ _ _ ?lc _ ?iters (?o, ?t)] =>
        pose proof (inner_loop_count lc iters o t) as Hin;
        pose proof (λ Hr, inner_loop_ok predict backward polynomial_decay
                            self Hr x y y_onehot lc batch_size iters (o, t))
          as Hok;
        destruct (inner_loop predict backward polynomial_decay self x y
                    y_onehot lc batch_size iters (o, t))
          as [[o' t']|e [o' t']]
    end; cbn in Hin; rewrite length_seq in Hin;
      destruct Hin as (H1 & H2 & H3 & H4).
    + match goal with
      | |- context [outer_loop _ _ _ _ _ _ _ _ _ ?l1] =>
          specialize (IH l1)
      end.
      cbn zeta in IH. cbn [self_global_step track] in IH.
      destruct IH as (I1 & I2 & I3).
      split; [lia|]. split; [lia|]. intros Ha Hr.
      destruct (H4 Ha Hr) as [H5 H6]. destruct (I3 Ha Hr) as [I4 I5].
      split; [lia|]. intros _.
      destruct steps as [|s' steps]; [|by apply I5]. cbn. lia.
    + cbn. split; [lia|]. split; [lia|]. intros Ha Hr.
      by destruct (Hok Hr).
Qed.

End Counting.

(** X5: one call of [perturb] hands at most
    [binary_search_steps * max_iterations] candidates to the bookkeeping
    and leaves [self.global_step] at most [max_iterations]; without early
    abort and with a decision rule EN or L1 every inner loop runs to its
    end: exactly [binary_search_steps * max_iterations] candidates are
    evaluated and [self.global_step] ends at [max_iterations]. *)
Theorem iteration_budget predict backward polynomial_decay
    _get_predicted_label self (x : list (list Q)) (yopt : option (list nat)) :
  let l := state_of
             (perturb_locals_at_return predict backward polynomial_decay
                _get_predicted_label self x yopt) in
  (self_global_step l ≤ max_iterations self)%nat ∧
  (length (calls (track l))
   ≤ binary_search_steps self * max_iterations self)%nat ∧
  (abort_early self = false →
   decision_rule self = "EN" ∨ decision_rule self = "L1" →
   length (calls (track l))
   = (binary_search_steps self * max_iterations self)%nat ∧
   ((0 < binary_search_steps self)%nat →
    self_global_step l = max_iterations self)).
Proof.
  intros l. unfold l, perturb_locals_at_return.
  match goal with
  | |- context [outer_loop _ _ _ _ ?x ?y ?yo ?bs ?steps ?l0] =>
      pose proof (outer_loop_count predict backward polynomial_decay self x y
                    yo bs steps l0) as H
  end.
  cbn zeta in H. rewrite length_seq in H. cbn [perturb_init self_global_step
    track calls length] in H.
  destruct H as (H1 & H2 & H3).
  split; [lia|]. split; [lia|]. intros Ha Hr.
  destruct (H3 Ha Hr) as [H4 H5]. split; [lia|]. intros Hb. apply H5.
  destruct (binary_search_steps self); [lia|done].
Qed.

(** ** Shrinkage *)

Lemma assign_newimg_shrinks self sv xv :
  0 <= beta self →
  clip_min self <= xv <= clip_max self →
  Qabs (assign_newimg_at self sv xv - xv)
    <= Qmax 0 (Qabs (sv - xv) - beta self) ∧
  (assign_newimg_at self sv xv == xv ∨ beta self < Qabs (sv - xv)).
Proof.
  intros Hb Hx.
  destruct (assign_newimg_cases self sv xv Hb) as (H1 & H2 & H3).
  destruct (Qlt_le_dec (beta self) (sv - xv)) as [Hd|Hd].
  - specialize (H1 Hd). split.
    + rewrite H1.
      destruct (Q.min_spec (sv - beta self) (clip_max self))
        as [[Hm ->]|[Hm ->]];
        (rewrite Qabs_pos by lra); (rewrite (Qabs_pos (sv - xv)) by lra);
        (eapply Qle_trans; [|apply Q.le_max_r]); lra.
    + right. rewrite Qabs_pos by lra. done.
  - destruct (Qlt_le_dec (sv - xv) (- beta self)) as [Hd'|Hd'].
    + specialize (H3 Hd'). split.
      * rewrite H3.
        destruct (Q.max_spec (sv + beta self) (clip_min self))
          as [[Hm ->]|[Hm ->]];
          (rewrite Qabs_neg by lra); (rewrite (Qabs_neg (sv - xv)) by lra);
          (eapply Qle_trans; [|apply Q.le_max_r]); lra.
      * right. rewrite Qabs_neg by lra. lra.
    + assert (Qabs (sv - xv) <= beta self) as Habs
        by (apply Qabs_Qle_condition; lra).
      specialize (H2 Habs). split; [|by left].
      rewrite H2.
      assert (xv - xv == 0) as -> by ring. simpl. apply Q.le_max_l.
Qed.

(** X6: for [beta >= 0] and an entry of [x] inside the box, the candidate
    of the proximal projection is no further from [x] than [slack] minus
    the threshold: [|candidate - x| <= max(0, |slack - x| - beta)]; the
    candidate differs from [x] only where [slack] differs from [x] by more
    than [beta]. *)
Theorem fista_shrinks_towards_input self (global_step : nat)
    (x slack newimg : list (list Q)) (i j : nat) (sv xv : Q) :
  0 <= beta self →
  at2 slack i j = Some sv →
  at2 x i j = Some xv →
  clip_min self <= xv <= clip_max self →
  ∃ c,
    at2 (snd (_fast_iterative_shrinkage_thresholding self global_step x slack
                newimg)) i j = Some c ∧
    Qabs (c - xv) <= Qmax 0 (Qabs (sv - xv) - beta self) ∧
    (c == xv ∨ beta self < Qabs (sv - xv)).
Proof.
  intros Hb Hs Hx Hbox.
  pose proof (fista_at self global_step x slack newimg i j) as Hat.
  destruct (_fast_iterative_shrinkage_thresholding _ _ _ _ _) as [s c].
  destruct Hat as [Hc _]. rewrite Hs, Hx in Hc.
  exists (assign_newimg_at self sv xv). split; [exact Hc|].
  by apply assign_newimg_shrinks.
Qed.

Lemma fista_shrinks_towards_input_witness :
  ∃ c,
    at2 (snd (_fast_iterative_shrinkage_thresholding demo_attack 1
                [[0.25; 1]] [[0.5; 2]] [[0.25; 1]])) 0 1 = Some c ∧
    Qabs (c - 1) <= Qmax 0 (Qabs (2 - 1) - beta demo_attack) ∧
    (c == 1 ∨ beta demo_attack < Qabs (2 - 1)).
Proof.
  apply (fista_shrinks_towards_input demo_attack 1 [[0.25; 1]] [[0.5; 2]]
           [[0.25; 1]] 0 1 2 1).
  - vm_compute. discriminate.
  - reflexivity.
  - reflexivity.
  - split; vm_compute; discriminate.
Defined.

(** ** Signs of the losses *)

Lemma tsum_nonneg (l : list Q) : Forall (fun v => 0 <= v) l → 0 <= tsum l.
Proof.
  induction 1 as [|v l Hv _ IH]; simpl; [lra|]. lra.
Qed.

Lemma zip_with_Qmult_nonneg (c l : list Q) :
  Forall (fun v => 0 <= v) c → Forall (fun v => 0 <= v) l →
  Forall (fun v => 0 <= v) (zip_with Qmult c l).
Proof.
  intros Hc. revert l. induction Hc as [|a c Ha _ IH]; intros l Hl; [done|].
  destruct Hl as [|b l Hb Hl]; [done|]. simpl. constructor; [|by apply IH].
  by apply Qmult_le_0_compat.
Qed.

Lemma clamp_min0_nonneg (l : list Q) :
  Forall (fun v => 0 <= v) (map (fun v => clamp v (Some 0) None) l).
Proof.
  apply Forall_fmap, Forall_forall. intros v _. simpl. apply Q.le_max_r.
Qed.

(** X7: with non-negative coefficients, distortions and [beta], the
    optimisation loss is non-negative and the full loss is at least the
    optimisation loss, whatever the scores and the one-hot tensor. *)
Theorem losses_nonnegative self (output y_onehot : list (list Q))
    (l1dist l2distsq const : list Q) :
  0 <= beta self →
  Forall (fun v => 0 <= v) const →
  Forall (fun v => 0 <= v) l1dist →
  Forall (fun v => 0 <= v) l2distsq →
  0 <= _loss_opt_fn self output y_onehot l2distsq const ∧
  _loss_opt_fn self output y_onehot l2distsq const
    <= _loss_fn self output y_onehot l1dist l2distsq const.
Proof.
  intros Hb Hc H1 H2. unfold _loss_opt_fn, _loss_fn. cbn zeta.
  match goal with
  | |- 0 <= tsum (zip_with Qmult const ?m) + _ ∧ _ =>
      assert (0 <= tsum (zip_with Qmult const m)) as Hm
  end.
  { apply tsum_nonneg, zip_with_Qmult_nonneg; [done|].
    destruct (targeted self); apply clamp_min0_nonneg. }
  pose proof (tsum_nonneg _ H1). pose proof (tsum_nonneg _ H2).
  assert (0 <= beta self * tsum l1dist) by (by apply Qmult_le_0_compat).
  split; lra.
Qed.

Lemma losses_nonnegative_witness :
  0 <= _loss_opt_fn demo_attack [[0.75; 0.25]] (to_one_hot [0%nat] 2)
         [0.25] [2].
Proof.
  refine (proj1 (losses_nonnegative demo_attack [[0.75; 0.25]]
                   (to_one_hot [0%nat] 2) [0.5] [0.25] [2] _ _ _ _)).
  - vm_compute. discriminate.
  - repeat constructor. vm_compute. discriminate.
  - repeat constructor. vm_compute. discriminate.
  - repeat constructor. vm_compute. discriminate.
Defined.

(** ** The bisection bounds over the outer loop *)

Lemma length_update_loss_coeffs_at self labs cur lc ub lb s ii r :
  length (deref (update_loss_coeffs_at self labs cur lc ub lb s ii) r)
  = length (deref s r).
Proof.
  unfold update_loss_coeffs_at.
  repeat match goal with
         | |- context [if ?c then _ else _] => destruct c
         end;
    by rewrite ?length_deref_wr.
Qed.

Lemma length_update_loss_coeffs self labs cur n lc ub lb s r :
  length (deref (_update_loss_coeffs self labs cur n lc ub lb s) r)
  = length (deref s r).
Proof.
  unfold _update_loss_coeffs. generalize (seq 0 n). intros l. revert s.
  induction l as [|ii l IH]; intros s; [done|].
  cbn [foldl]. by rewrite IH, length_update_loss_coeffs_at.
Qed.

Section Bounds.

Variable predict : list (list Q) → list (list Q).
Variable backward :
  list (list Q) → list (list Q) → list (list Q) → list Q → list (list Q).
Variable polynomial_decay : Q → nat → nat → Q → Q → Q.
Variable self : ElasticNetL1Attack.
Variable x : list (list Q).
Variable y : list nat.
Variable y_onehot : list (list Q).
Variable batch_size : nat.

Lemma outer_iteration_bounds s l i :
  loss_coeffs l ≠ RefLower →
  (i < batch_size)%nat →
  (i < length (lower_tensor (store l)))%nat →
  (i < length (upper_tensor (store l)))%nat →
  (i < length (coeffs_tensor (store l)))%nat →
  let l1 := state_of
              (outer_iteration predict backward polynomial_decay self x y
                 y_onehot batch_size s l) in
  loss_coeffs l1 ≠ RefLower ∧
  (∀ r, length (deref (store l1) r) = length (deref (store l) r)) ∧
  rd (store l) RefLower i <= rd (store l1) RefLower i ∧
  (loss_coeffs l = RefCoeffs →
   repeat self && Nat.eqb s (binary_search_steps self - 1) = false →
   loss_coeffs l1 = RefCoeffs ∧
   rd (store l1) RefUpper i <= rd (store l) RefUpper i).
Proof.
  intros Hlc Hi Hl Hu Hc l1. subst l1. unfold outer_iteration.
  set (lc := if repeat self && Nat.eqb s (binary_search_steps self - 1)
             then RefUpper else loss_coeffs l).
  assert (lc ≠ RefLower) as Hlc' by (unfold lc; by destruct (_ && _)).
  destruct (inner_loop _ _ _ _ _ _ _ _ _ _ _) as [[o' t']|e [o' t']];
    cbn [state_of store loss_coeffs].
  - split; [done|]. split; [intros r; apply length_update_loss_coeffs|].
    destruct (coeff_bounds_monotone self y (cur_labels t') batch_size lc
                (store l) i Hlc' Hi Hl Hu Hc) as [Hlow Hup].
    split; [exact Hlow|]. intros E1 E2. unfold lc in *. rewrite E2 in *.
    split; [done|]. by apply Hup.
  - split; [done|]. split; [done|]. split; [lra|].
    intros E1 E2. unfold lc. rewrite E2. split; [done|lra].
Qed.

Lemma outer_loop_bounds steps l i :
  loss_coeffs l ≠ RefLower →
  (i < batch_size)%nat →
  (i < length (lower_tensor (store l)))%nat →
  (i < length (upper_tensor (store l)))%nat →
  (i < length (coeffs_tensor (store l)))%nat →
  let l' := state_of
              (outer_loop predict backward polynomial_decay self x y y_onehot
                 batch_size steps l) in
  rd (store l) RefLower i <= rd (store l') RefLower i ∧
  (loss_coeffs l = RefCoeffs →
   repeat self = false ∨ (binary_search_steps self - 1)%nat ∉ steps →
   loss_coeffs l' = RefCoeffs ∧
   rd (store l') RefUpper i <= rd (store l) RefUpper i).
Proof.
  revert l. induction steps as [|s steps IH]; intros l Hlc Hi Hl Hu Hc l'.
  - subst l'. cbn. split; [lra|]. intros. split; [done|lra].
  - subst l'. cbn [outer_loop].
    destruct (outer_iteration_bounds s l i Hlc Hi Hl Hu Hc)
      as (Hlc1 & Hlen & Hlow & Hup).
    destruct (outer_iteration _ _ _ _ _ _ _ _ _ _) as [l1|e l1];
      cbn [state_of] in *.
    + specialize (IH l1 Hlc1 Hi).
      pose proof (Hlen RefLower) as E1. pose proof (Hlen RefUpper) as E2.
      pose proof (Hlen RefCoeffs) as E3. cbn [deref] in E1, E2, E3.
      destruct IH as [Ilow Iup]; [lia..|].
      split; [lra|]. intros Ec Hnot.
      assert (repeat self && Nat.eqb s (binary_search_steps self - 1) = false)
        as Hs.
      { destruct Hnot as [->|Hnot]; [done|].
        apply andb_false_iff. right. apply Nat.eqb_neq. intros ->.
        apply Hnot, list_elem_of_here. }
      destruct (Hup Ec Hs) as [Ec1 Hup1].
      destruct (Iup Ec1) as [Ec' Hup'].
      { destruct Hnot as [?|Hnot]; [by left|right].
        intros Hin. apply Hnot. apply elem_of_cons. by right. }
      split; [done|lra].
    + split; [done|]. intros Ec Hnot. apply Hup; [done|].
      destruct Hnot as [->|Hnot]; [done|].
      apply andb_false_iff. right. apply Nat.eqb_neq. intros ->.
      apply Hnot, list_elem_of_here.
Qed.

End Bounds.

(** X8: over any stretch of outer steps, from any state in which
    [loss_coeffs] is its own tensor or the tensor of [coeff_upper_bound],
    [coeff_lower_bound[i]] never drops; and as long as [loss_coeffs] is
    its own tensor and the stretch does not contain the rebinding step
    ([repeat] unset, or the last step index [binary_search_steps - 1] not
    in the stretch), [loss_coeffs] stays its own tensor and
    [coeff_upper_bound[i]] never grows. *)
Theorem coeff_bounds_monotone_over_steps predict backward polynomial_decay
    self (x : list (list Q)) (y : list nat) (y_onehot : list (list Q))
    (batch_size : nat) (steps : list nat) (l : perturb_locals) (i : nat) :
  loss_coeffs l ≠ RefLower →
  (i < batch_size)%nat →
  (i < length (lower_tensor (store l)))%nat →
  (i < length (upper_tensor (store l)))%nat →
  (i < length (coeffs_tensor (store l)))%nat →
  let l' := state_of
              (outer_loop predict backward polynomial_decay self x y y_onehot
                 batch_size steps l) in
  rd (store l) RefLower i <= rd (store l') RefLower i ∧
  (loss_coeffs l = RefCoeffs →
   repeat self = false ∨ (binary_search_steps self - 1)%nat ∉ steps →
   loss_coeffs l' = RefCoeffs ∧
   rd (store l') RefUpper i <= rd (store l) RefUpper i).
Proof. apply outer_loop_bounds. Qed.

Lemma coeff_bounds_monotone_over_steps_witness :
  let l := perturb_init ten_step_attack [[0.25]] [0%nat] in
  let l' := state_of
              (outer_loop stuck_predict stuck_backward demo_decay
                 ten_step_attack [[0.25]] [0%nat] (to_one_hot [0%nat] 2) 1
                 (seq 0 9) l) in
  rd (store l) RefLower 0 <= rd (store l') RefLower 0 ∧
  loss_coeffs l' = RefCoeffs ∧
  rd (store l') RefUpper 0 <= rd (store l) RefUpper 0.
Proof.
  intros l l'.
  destruct (coeff_bounds_monotone_over_steps stuck_predict stuck_backward
              demo_decay ten_step_attack [[0.25]] [0%nat]
              (to_one_hot [0%nat] 2) 1 (seq 0 9) l 0) as [Hlow Hup].
  - discriminate.
  - lia.
  - simpl. lia.
  - simpl. lia.
  - simpl. lia.
  - split; [exact Hlow|]. apply Hup; [reflexivity|].
    right. cbn. intros Hin.
    repeat (apply elem_of_cons in Hin as [Hin|Hin]; [discriminate|]).
    by apply elem_of_nil in Hin.
Defined.

(** ** The arg-max *)

Lemma is_argmax_all_le row k v :
  is_argmax row k → row !! k = Some v → ∀ j u, row !! j = Some u → u <= v.
Proof.
  intros (v' & Hk & Hbefore & Hafter) Hv j u Hu.
  assert (v' = v) as -> by congruence.
  destruct (lt_eq_lt_dec j k) as [[Hlt| ->]|Hgt].
  - pose proof (Hbefore j u Hlt Hu). lra.
  - assert (u = v) as -> by congruence. lra.
  - by apply (Hafter j u).
Qed.

Lemma is_argmax_unique row k k' : is_argmax row k → is_argmax row k' → k = k'.
Proof.
  intros (v & Hk & Hb & Ha) (v' & Hk' & Hb' & Ha').
  destruct (lt_eq_lt_dec k k') as [[Hlt|Heq]|Hgt]; [|done|].
  - pose proof (Hb' k v Hlt Hk). pose proof (Ha k' v' Hlt Hk'). lra.
  - pose proof (Hb k' v' Hgt Hk'). pose proof (Ha' k v Hgt Hk). lra.
Qed.

Lemma argmax_from_spec rest p best_i best :
  is_argmax p best_i → p !! best_i = Some best →
  is_argmax (p ++ rest) (argmax_from best_i best (length p) rest).
Proof.
  revert p best_i best.
  induction rest as [|v rest IH]; intros p best_i best Hp Hbest; simpl.
  - by rewrite app_nil_r.
  - assert (best_i < length p)%nat as Hlt by (by eapply lookup_lt_Some).
    replace (p ++ v :: rest) with ((p ++ [v]) ++ rest)
      by (by rewrite <- app_assoc).
    replace (S (length p)) with (length (p ++ [v]))
      by (rewrite length_app; simpl; lia).
    destruct (Qltb best v) eqn:E.
    + apply Qltb_lt in E. apply IH.
      * exists v. split; [by rewrite lookup_app_r, Nat.sub_diag|]. split.
        -- intros j u Hj Hu. rewrite lookup_app_l in Hu by done.
           pose proof (is_argmax_all_le p best_i best Hp Hbest j u Hu). lra.
        -- intros j u Hj Hu. apply lookup_lt_Some in Hu.
           rewrite length_app in Hu. simpl in Hu. lia.
      * by rewrite lookup_app_r, Nat.sub_diag.
    + apply Qltb_ge in E. apply IH.
      * destruct Hp as (b & Hb & Hbefore & Hafter).
        assert (b = best) as -> by congruence.
        exists best. split; [by rewrite lookup_app_l|]. split.
        -- intros j u Hj Hu. rewrite lookup_app_l in Hu by lia.
           by apply (Hbefore j u).
        -- intros j u Hj Hu.
           destruct (decide (j < length p)%nat) as [Hjl|Hjl].
           ++ rewrite lookup_app_l in Hu by done. by apply (Hafter j u).
           ++ rewrite lookup_app_r in Hu by lia.
              destruct (j - length p)%nat; [|by destruct n].
              simpl in Hu. by injection Hu as <-.
      * by rewrite lookup_app_l.
Qed.

Lemma argmax_is_argmax row : row ≠ [] → is_argmax row (argmax row).
Proof.
  destruct row as [|v rest]; [done|]. intros _. unfold argmax.
  apply (argmax_from_spec rest [v] 0%nat v); [|done].
  exists v. split; [done|]. split.
  - intros j u Hj. lia.
  - intros j u Hj Hu. destruct j; [lia|]. by destruct j.
Qed.

Lemma argmax_lt_length row : row ≠ [] → (argmax row < length row)%nat.
Proof.
  intros Hne. destruct (argmax_is_argmax row Hne) as (v & Hv & _).
  by eapply lookup_lt_Some.
Qed.

Lemma argmax_eq_iff row k : row ≠ [] → argmax row = k ↔ is_argmax row k.
Proof.
  intros Hne. split.
  - intros <-. by apply argmax_is_argmax.
  - intros Hk. eapply is_argmax_unique; [|exact Hk]. by apply argmax_is_argmax.
Qed.

(** Raising the entry at the arg-max keeps it the arg-max; if the arg-max
    of a row with one entry lowered is that entry, it was the arg-max
    before. *)
Lemma is_argmax_alter_up (f : Q → Q) row k :
  (∀ v, v <= f v) → is_argmax row k → is_argmax (alter f k row) k.
Proof.
  intros Hf (v & Hv & Hb & Ha). exists (f v).
  split; [by rewrite list_lookup_alter_eq, Hv|]. split.
  - intros j u Hj Hu. rewrite list_lookup_alter_ne in Hu by lia.
    pose proof (Hb j u Hj Hu). pose proof (Hf v). lra.
  - intros j u Hj Hu. rewrite list_lookup_alter_ne in Hu by lia.
    pose proof (Ha j u Hj Hu). pose proof (Hf v). lra.
Qed.

Lemma is_argmax_alter_down (f : Q → Q) row k :
  (∀ v, f v <= v) → is_argmax (alter f k row) k → is_argmax row k.
Proof.
  intros Hf (w & Hw & Hb & Ha). rewrite list_lookup_alter_eq in Hw.
  destruct (row !! k) as [v|] eqn:Hv; [|done]. injection Hw as <-.
  exists v. split; [done|]. split.
  - intros j u Hj Hu.
    pose proof (Hb j u Hj) as H. rewrite list_lookup_alter_ne in H by lia.
    pose proof (H Hu). pose proof (Hf v). lra.
  - intros j u Hj Hu.
    pose proof (Ha j u Hj) as H. rewrite list_lookup_alter_ne in H by lia.
    pose proof (H Hu). pose proof (Hf v). lra.
Qed.

Lemma argmax_alter_up (f : Q → Q) row k :
  (∀ v, v <= f v) → argmax row = k → argmax (alter f k row) = k.
Proof.
  intros Hf Hk. destruct row as [|v rest]; [done|].
  apply argmax_eq_iff; [by destruct k|].
  apply is_argmax_alter_up; [done|]. by apply argmax_eq_iff.
Qed.

Lemma argmax_alter_down (f : Q → Q) row k :
  (∀ v, f v <= v) → argmax (alter f k row) = k → argmax row = k.
Proof.
  intros Hf Hk. destruct row as [|v rest]; [done|].
  apply argmax_eq_iff; [done|].
  apply (is_argmax_alter_down f); [done|].
  apply argmax_eq_iff; [by destruct k|done].
Qed.

Lemma is_successful_label_of_nat self (k label : nat) :
  _is_successful_label self (Z.of_nat k) label
  = is_successful (Z.of_nat k) (Z.of_nat label) (targeted self).
Proof.
  unfold _is_successful_label.
  destruct (Z.eqb_spec (Z.of_nat k) INVALID_LABEL) as [E|_]; [|done].
  unfold INVALID_LABEL in E. lia.
Qed.

(** The two modes on one row. *)
Lemma succeeds_on_label self (row : list Q) (label : nat) :
  (0 <= confidence self →
   succeeds_on self row label = true →
   _is_successful_label self (Z.of_nat (argmax row)) label = true) ∧
  (confidence self <= 0 →
   _is_successful_label self (Z.of_nat (argmax row)) label = true →
   succeeds_on self row label = true).
Proof.
  rewrite is_successful_label_of_nat.
  unfold succeeds_on, adjusted_row, is_successful.
  destruct (targeted self); split; intros Hc.
  - intros H. apply Z.eqb_eq, Nat2Z.inj in H.
    apply Z.eqb_eq. f_equal.
    apply (argmax_alter_down (fun v => v - confidence self)); [|done].
    intros v. lra.
  - intros H. apply Z.eqb_eq, Nat2Z.inj in H.
    apply Z.eqb_eq. f_equal.
    apply (argmax_alter_up (fun v => v - confidence self)); [|done].
    intros v. lra.
  - intros H. apply negb_true_iff, Z.eqb_neq in H.
    apply negb_true_iff, Z.eqb_neq. intros E. apply Nat2Z.inj in E.
    apply H. f_equal.
    apply (argmax_alter_up (fun v => v + confidence self)); [|done].
    intros v. lra.
  - intros H. apply negb_true_iff, Z.eqb_neq in H.
    apply negb_true_iff, Z.eqb_neq. intros E. apply Nat2Z.inj in E.
    apply H. f_equal.
    apply (argmax_alter_down (fun v => v + confidence self)); [|done].
    intros v. lra.
Qed.

(** X9: the two modes of [_is_successful] against each other, on one row
    of scores and the arg-max label the bookkeeping stores for it.  For
    [confidence >= 0] a success in logits mode (confidence-adjusted) is a
    success in label mode on the plain arg-max; for [confidence <= 0] the
    converse holds; so for [confidence = 0] the two agree. *)
Theorem success_modes_agree self (output : list (list Q)) (y : list nat)
    (i : nat) (row : list Q) (label : nat) :
  output !! i = Some row →
  y !! i = Some label →
  (0 <= confidence self →
   _is_successful_logits self output y !! i = Some true →
   _is_successful_label self (Z.of_nat (argmax row)) label = true) ∧
  (confidence self <= 0 →
   _is_successful_label self (Z.of_nat (argmax row)) label = true →
   _is_successful_logits self output y !! i = Some true).
Proof.
  intros Hrow Hlab. unfold _is_successful_logits.
  rewrite lookup_zip_with, Hrow, Hlab. cbn [mbind option_bind].
  destruct (succeeds_on_label self row label) as [H1 H2].
  split; intros Hc.
  - intros [= H]. by apply H1.
  - intros H. f_equal. by apply H2.
Qed.

Lemma success_modes_agree_witness :
  _is_successful_label demo_attack (Z.of_nat (argmax [0.25; 0.75])) 0 = true.
Proof.
  refine (proj1 (success_modes_agree demo_attack [[0.25; 0.75]] [0%nat] 0
                   [0.25; 0.75] 0%nat _ _) _ _).
  - reflexivity.
  - reflexivity.
  - vm_compute. discriminate.
  - vm_compute. reflexivity.
Defined.

(** ** The success branch of the coefficient update *)

Lemma cur_label_sound_step self (adv : list (list Q)) y output dist batch_size
    i t :
  cur_label_sound self y i t →
  cur_label_sound self y i
    (_update_if_smaller_dist_succeed self adv y output dist batch_size t).
Proof.
  intros Ht lab Hlab Hne.
  destruct (update_cur_cases self adv y output dist batch_size t i)
    as [(d & b & row & _ & _ & _ & Hs & Hrow & _ & Hcl)|(_ & _ & Ecl)].
  - rewrite Hcl in Hlab.
    + injection Hlab as <-. unfold _is_successful_logits in Hs.
      rewrite lookup_zip_with, Hrow in Hs. cbn in Hs.
      destruct (y !! i) as [label|]; [|done]. cbn in Hs.
      injection Hs as Hs. by exists row, label.
    + apply lookup_lt_is_Some.
      destruct (update_lengths self adv y output dist batch_size t)
        as (_ & <- & _). by eapply lookup_lt_Some.
  - rewrite Ecl in Hlab. by apply Ht.
Qed.

(** X10: for [confidence >= 0], a sample whose [cur_labels] entry is a
    class when an outer step ends takes the success branch of
    [_update_loss_coeffs]: the lower bound is kept, the upper bound is
    lowered to [min(U, C)] (when [loss_coeffs] is its own tensor), and
    [loss_coeffs[i]] becomes the midpoint whenever that minimum is below
    [UPPER_CHECK]. *)
Theorem class_label_takes_success_branch predict backward polynomial_decay
    self (x : list (list Q)) (y : list nat) (y_onehot : list (list Q))
    (batch_size outer_step : nat) (l l' : perturb_locals) (i : nat) (lab : Z) :
  0 <= confidence self →
  outer_iteration predict backward polynomial_decay self x y y_onehot
    batch_size outer_step l = Ok l' →
  loss_coeffs l ≠ RefLower →
  (i < batch_size)%nat →
  (i < length (lower_tensor (store l)))%nat →
  (i < length (upper_tensor (store l)))%nat →
  (i < length (coeffs_tensor (store l)))%nat →
  cur_labels (track l') !! i = Some lab →
  lab ≠ INVALID_LABEL →
  let lc := loss_coeffs l' in
  let L := rd (store l) RefLower i in
  let U := rd (store l) RefUpper i in
  let C := rd (store l) lc i in
  rd (store l') RefLower i = L ∧
  (lc = RefCoeffs → rd (store l') RefUpper i = Qmin U C) ∧
  rd (store l') lc i
  = (if Qltb (Qmin U C) UPPER_CHECK then (L + Qmin U C) / 2 else C).
Proof.
  intros Hconf Hout Hlc Hi Hl Hu Hc Hlab Hne.
  unfold outer_iteration in Hout.
  match type of Hout with
  | context [inner_loop _ _ _ _ _ _ _ ?lcv _ ?iters (?o, ?t)] =>
      pose proof (inner_loop_inv predict backward polynomial_decay self x y
                    y_onehot batch_size (cur_label_sound self y i)
                    (λ lc0 t0 gs slack prev loss dist output _,
                       cur_label_sound_step self _ y output dist batch_size
                         i t0)
                    lcv iters o t) as Hsound;
      destruct (inner_loop predict backward polynomial_decay self x y
                  y_onehot lcv batch_size iters (o, t))
        as [[o' t']|e [o' t']]
  end; [|done].
  injection Hout as <-. cbn [track store loss_coeffs] in *.
  cbn [state_of snd] in Hsound.
  assert (cur_label_sound self y i t') as Hsound'.
  { apply Hsound. intros lab0 Hlab0 Hne0. cbn in Hlab0.
    by apply lookup_replicate in Hlab0 as [-> _]. }
  destruct (Hsound' lab Hlab Hne) as (row & label & Hy & -> & Hs).
  set (lc := if repeat self && Nat.eqb outer_step (binary_search_steps self - 1)
             then RefUpper else loss_coeffs l).
  assert (lc ≠ RefLower) as Hlc' by (unfold lc; by destruct (_ && _)).
  pose proof (update_loss_coeffs_spec self y (cur_labels t') batch_size lc
                (store l) i Hlc' Hi Hl Hu Hc) as Hspec.
  cbn zeta in Hspec. rewrite Hlab, Hy in Hspec.
  change (default 0%Z (Some (Z.of_nat (argmax row))))
    with (Z.of_nat (argmax row)) in Hspec.
  change (default 0%nat (Some label)) with label in Hspec.
  rewrite (proj1 (succeeds_on_label self row label) Hconf Hs) in Hspec.
  rewrite <- !py_min_Qmin. exact Hspec.
Qed.

Lemma class_label_takes_success_branch_witness :
  let l := perturb_init tiny_attack [[0.45]] [0%nat] in
  ∃ l',
    outer_iteration demo_predict demo_backward demo_decay tiny_attack
      [[0.45]] [0%nat] (to_one_hot [0%nat] 2) 1 0 l = Ok l' ∧
    rd (store l') RefUpper 0
    = Qmin (rd (store l) RefUpper 0) (rd (store l) RefCoeffs 0).
Proof.
  intros l.
  assert (∃ l',
    outer_iteration demo_predict demo_backward demo_decay tiny_attack
      [[0.45]] [0%nat] (to_one_hot [0%nat] 2) 1 0 l = Ok l' ∧
    cur_labels (track l') !! 0%nat = Some 1%Z ∧
    loss_coeffs l' = RefCoeffs) as (l' & Hout & Hcur & Hlc).
  { vm_compute. eexists. split; [reflexivity|]. split; reflexivity. }
  exists l'. split; [exact Hout|].
  destruct (class_label_takes_success_branch demo_predict demo_backward
              demo_decay tiny_attack [[0.45]] [0%nat] (to_one_hot [0%nat] 2)
              1 0 l l' 0 1%Z) as (_ & H & _).
  - vm_compute. discriminate.
  - exact Hout.
  - discriminate.
  - lia.
  - simpl. lia.
  - simpl. lia.
  - simpl. lia.
  - exact Hcur.
  - discriminate.
  - rewrite Hlc in H. by apply H.
Defined.

(** ** The margin of a successful sample *)





(** ** The range of the final labels *)

(** X12: for a classifier whose score rows all have [num_classes > 0]
    columns, every entry of [final_labels] when [perturb] ends is either
    the sentinel or a class index in [[0, num_classes)]. *)
Theorem final_labels_in_range predict backward polynomial_decay
    _get_predicted_label self (x : list (list Q)) (yopt : option (list nat))
    (i : nat) (lab : Z) :
  (∀ b, Forall (fun row => length row = num_classes self) (predict b)) →
  (0 < num_classes self)%nat →
  final_labels
    (track (state_of
              (perturb_locals_at_return predict backward polynomial_decay
                 _get_predicted_label self x yopt))) !! i = Some lab →
  lab = INVALID_LABEL ∨ (0 <= lab < Z.of_nat (num_classes self))%Z.
Proof.
  intros Hshape Hpos Hlab.
  pose proof (perturb_tracking_inv predict backward polynomial_decay
                _get_predicted_label self x yopt) as Hinv.
  cbn zeta in Hinv. destruct Hinv as (_ & Hlen & _ & Hcalls & Hat).
  assert (i < length x)%nat as Hi
    by (rewrite <- Hlen; by eapply lookup_lt_Some).
  destruct (Hat i Hi) as [(_ & Hlab0 & _)|
    (adv & out & ds & img & row & d & Hin & _ & _ & Hrow & _ & _ & _ & Hfl)].
  - left. congruence.
  - right. rewrite Hfl in Hlab. injection Hlab as <-.
    rewrite Forall_forall in Hcalls.
    destruct (Hcalls _ Hin) as [_ (lc & loss & Hr)].
    apply run_inr in Hr as [Hout _]. cbn in Hout. subst out.
    pose proof (Forall_lookup_1 _ _ _ _ (Hshape adv) Hrow) as Hrl.
    cbn in Hrl.
    assert (row ≠ []) as Hne by (intros ->; simpl in Hrl; lia).
    pose proof (argmax_lt_length row Hne). lia.
Qed.

Lemma final_labels_in_range_witness :
  ∃ lab,
    final_labels
      (track (state_of
                (perturb_locals_at_return demo_predict demo_backward
                   demo_decay demo_get_predicted_label tiny_attack
                   [[0.45]] (Some [0%nat])))) !! 0%nat = Some lab ∧
    (lab = INVALID_LABEL ∨ (0 <= lab < 2)%Z).
Proof.
  exists 1%Z.
  assert (final_labels
      (track (state_of
                (perturb_locals_at_return demo_predict demo_backward
                   demo_decay demo_get_predicted_label tiny_attack
                   [[0.45]] (Some [0%nat])))) !! 0%nat = Some 1%Z) as Hlab
    by (vm_compute; reflexivity).
  split; [exact Hlab|].
  apply (final_labels_in_range demo_predict demo_backward demo_decay
           demo_get_predicted_label tiny_attack [[0.45]] (Some [0%nat]) 0 1%Z).
  - intros b. unfold demo_predict. apply Forall_fmap, Forall_forall.
    intros img _. reflexivity.
  - simpl. lia.
  - exact Hlab.
Defined.

(** ** A sample the classifier is never fooled on *)

Section NeverFooled.

Variable predict : list (list Q) → list (list Q).
Variable backward :
  list (list Q) → list (list Q) → list (list Q) → list Q → list (list Q).
Variable polynomial_decay : Q → nat → nat → Q → Q → Q.
Variable self : ElasticNetL1Attack.
Variable x : list (list Q).
Variable y : list nat.
Variable y_onehot : list (list Q).
Variable batch_size : nat.
Variable i : nat.
Hypothesis never_fooled :
  ∀ b, _is_successful_logits self (predict b) y !! i ≠ Some true.

Lemma inner_loop_keeps_cur_label lc iters o t :
  cur_labels
    (snd (state_of
            (inner_loop predict backward polynomial_decay self x y y_onehot
               lc batch_size iters (o, t)))) !! i
  = cur_labels t !! i.
Proof.
  apply (inner_loop_inv predict backward polynomial_decay self x y y_onehot
           batch_size (fun t' => cur_labels t' !! i = cur_labels t !! i));
    [|done].
  intros lc' t' gs slack prev loss dist output Hrun Ht'.
  apply run_inr in Hrun as [-> _].
  match goal with
  | |- cur_labels (_update_if_smaller_dist_succeed _ ?adv _ ?out _ _ _) !! _
       = _ =>
      destruct (update_cur_cases self adv y out dist batch_size t' i)
        as [(d & b & row & _ & _ & _ & Hs & _)|(_ & _ & ->)]
  end; [|done].
  by destruct (never_fooled _ Hs).
Qed.

Lemma outer_iteration_tenfold s l l' :
  outer_iteration predict backward polynomial_decay self x y y_onehot
    batch_size s l = Ok l' →
  loss_coeffs l = RefCoeffs →
  repeat self && Nat.eqb s (binary_search_steps self - 1) = false →
  (i < batch_size)%nat →
  (i < length (lower_tensor (store l)))%nat →
  (i < length (upper_tensor (store l)))%nat →
  (i < length (coeffs_tensor (store l)))%nat →
  ¬ rd (store l) RefUpper i < UPPER_CHECK →
  loss_coeffs l' = RefCoeffs ∧
  (∀ r, length (deref (store l') r) = length (deref (store l) r)) ∧
  rd (store l') RefUpper i = rd (store l) RefUpper i ∧
  rd (store l') RefCoeffs i = rd (store l) RefCoeffs i * 10.
Proof.
  intros Hout Hlc Hs Hi Hl Hu Hc Hup. unfold outer_iteration in Hout.
  rewrite Hs, Hlc in Hout.
  match type of Hout with
  | context [inner_loop _ _ _ _ _ _ _ ?lcv _ ?iters (?o, ?t)] =>
      pose proof (inner_loop_keeps_cur_label lcv iters o t) as Hcur;
      destruct (inner_loop predict backward polynomial_decay self x y
                  y_onehot lcv batch_size iters (o, t))
        as [[o' t']|e [o' t']]
  end; [|done].
  injection Hout as <-. cbn [store loss_coeffs].
  cbn [state_of snd cur_labels] in Hcur.
  rewrite lookup_replicate_2 in Hcur by done.
  split; [done|]. split; [intros r; apply length_update_loss_coeffs|].
  assert (RefCoeffs ≠ RefLower) as Hne by done.
  pose proof (update_loss_coeffs_spec self y (cur_labels t') batch_size
                RefCoeffs (store l) i Hne Hi Hl Hu Hc) as Hspec.
  cbn zeta in Hspec. rewrite Hcur in Hspec.
  change (default 0%Z (Some INVALID_LABEL)) with INVALID_LABEL in Hspec.
  assert (∀ lab, _is_successful_label self INVALID_LABEL lab = false) as E
    by done.
  rewrite E in Hspec. destruct Hspec as (_ & HU & HC).
  split; [by apply HU|]. rewrite HC.
  destruct (Qltb (rd (store l) RefUpper i) UPPER_CHECK) eqn:Elt; [|done].
  by apply Qltb_lt in Elt.
Qed.

Lemma outer_loop_tenfold steps l l' :
  outer_loop predict backward polynomial_decay self x y y_onehot batch_size
    steps l = Ok l' →
  loss_coeffs l = RefCoeffs →
  repeat self = false ∨ (binary_search_steps self - 1)%nat ∉ steps →
  (i < batch_size)%nat →
  (i < length (lower_tensor (store l)))%nat →
  (i < length (upper_tensor (store l)))%nat →
  (i < length (coeffs_tensor (store l)))%nat →
  ¬ rd (store l) RefUpper i < UPPER_CHECK →
  loss_coeffs l' = RefCoeffs ∧
  rd (store l') RefUpper i = rd (store l) RefUpper i ∧
  rd (store l') RefCoeffs i
  == rd (store l) RefCoeffs i * inject_Z (10 ^ Z.of_nat (length steps)).
Proof.
  revert l. induction steps as [|s steps IH];
    intros l Hout Hlc Hnot Hi Hl Hu Hc Hup.
  - injection Hout as <-. split; [done|]. split; [done|].
    change (inject_Z (10 ^ Z.of_nat (length (@nil nat)))) with 1. ring.
  - cbn [outer_loop] in Hout.
    destruct (outer_iteration predict backward polynomial_decay self x y
                y_onehot batch_size s l) as [l1|e l1] eqn:E1; [|done].
    assert (repeat self && Nat.eqb s (binary_search_steps self - 1) = false)
      as Hs.
    { destruct Hnot as [->|Hnot]; [done|].
      apply andb_false_iff. right. apply Nat.eqb_neq. intros ->.
      apply Hnot, list_elem_of_here. }
    destruct (outer_iteration_tenfold s l l1 E1 Hlc Hs Hi Hl Hu Hc Hup)
      as (Hlc1 & Hlen & HU & HC).
    pose proof (Hlen RefLower) as L1. pose proof (Hlen RefUpper) as L2.
    pose proof (Hlen RefCoeffs) as L3. cbn [deref] in L1, L2, L3.
    destruct (IH l1 Hout Hlc1) as (Hlc' & HU' & HC'); try lia.
    + destruct Hnot as [?|Hnot]; [by left|right].
      intros Hin. apply Hnot. apply elem_of_cons. by right.
    + by rewrite HU.
    + split; [done|]. split; [congruence|].
      rewrite HC', HC. cbn [length]. rewrite Nat2Z.inj_succ, Z.pow_succ_r by lia.
      rewrite inject_Z_mult. ring.
Qed.

End NeverFooled.

(** X13: for a sample on which the classifier is never a
    confidence-adjusted success, every outer step that returns takes the
    failure branch with the upper bound still at or above [UPPER_CHECK]:
    over a stretch of [n] outer steps without the rebinding of line 280,
    [coeff_upper_bound[i]] is unchanged and [loss_coeffs[i]] is multiplied
    by [10 ^ n]. *)
Theorem coefficient_grows_tenfold predict backward polynomial_decay self
    (x : list (list Q)) (y : list nat) (y_onehot : list (list Q))
    (batch_size i : nat) (steps : list nat) (l l' : perturb_locals) :
  (∀ b, _is_successful_logits self (predict b) y !! i ≠ Some true) →
  outer_loop predict backward polynomial_decay self x y y_onehot batch_size
    steps l = Ok l' →
  loss_coeffs l = RefCoeffs →
  repeat self = false ∨ (binary_search_steps self - 1)%nat ∉ steps →
  (i < batch_size)%nat →
  (i < length (lower_tensor (store l)))%nat →
  (i < length (upper_tensor (store l)))%nat →
  (i < length (coeffs_tensor (store l)))%nat →
  ¬ rd (store l) RefUpper i < UPPER_CHECK →
  loss_coeffs l' = RefCoeffs ∧
  rd (store l') RefUpper i = rd (store l) RefUpper i ∧
  rd (store l') RefCoeffs i
  == rd (store l) RefCoeffs i * inject_Z (10 ^ Z.of_nat (length steps)).
Proof. intros H. by apply outer_loop_tenfold. Qed.

Lemma coefficient_grows_tenfold_witness :
  ∃ l',
    outer_loop stuck_predict stuck_backward demo_decay ten_step_attack
      [[0.25]] [0%nat] (to_one_hot [0%nat] 2) 1 (seq 0 9)
      (perturb_init ten_step_attack [[0.25]] [0%nat]) = Ok l' ∧
    rd (store l') RefCoeffs 0 == 0.001 * inject_Z (10 ^ 9).
Proof.
  destruct (outer_loop_ok stuck_predict stuck_backward demo_decay
              ten_step_attack (or_introl eq_refl) [[0.25]] [0%nat]
              (to_one_hot [0%nat] 2) 1 (seq 0 9)
              (perturb_init ten_step_attack [[0.25]] [0%nat])) as [l' Hl'].
  exists l'. split; [exact Hl'|].
  destruct (coefficient_grows_tenfold stuck_predict stuck_backward demo_decay
              ten_step_attack [[0.25]] [0%nat] (to_one_hot [0%nat] 2) 1 0
              (seq 0 9) (perturb_init ten_step_attack [[0.25]] [0%nat]) l')
    as (_ & _ & H).
  - intros b. unfold _is_successful_logits, stuck_predict.
    rewrite lookup_zip_with, list_lookup_fmap.
    destruct (b !! 0%nat); [|done]. cbn. discriminate.
  - exact Hl'.
  - reflexivity.
  - right. cbn. intros Hin.
    repeat (apply elem_of_cons in Hin as [Hin|Hin]; [discriminate|]).
    by apply elem_of_nil in Hin.
  - lia.
  - simpl. lia.
  - simpl. lia.
  - simpl. lia.
  - vm_compute. discriminate.
  - rewrite H. vm_compute. reflexivity.
Defined.
